(** * Real-time visitor tracker: the connection registry of [backend/server.js]

    A shallow embedding of the Express server's in-memory bookkeeping:
    the module-level [activeConnections] map and [totalConnections]
    counter, the attach path of the [/events] handler, the detach path of
    its [close] handler, [broadcastCount], the heartbeat timer and the
    [/health] handler.

    Modelling choices.
    - [activeConnections] is a JS [Map<sessionId, Set<res>>]; it is a
      [gmap string (gset Handle)].  JS iterates a [Map] and a [Set] in
      insertion order; no statement below depends on the order in which
      one broadcast visits the handles.
    - A response object [res] is compared by identity in a JS [Set]; a
      [Handle] is that identity, a natural number.
    - [totalConnections] is a JS number changed only by [++] and [--]
      from [0]; it is an integer [Z] (JS is exact below 2^53), and it can
      become negative.
    - [res.write] reports a vanished client through its return value and
      the stream's error event, not by throwing; the source discards that
      result.  The model records every call with the transport's verdict.
    - [new Date()] is an argument of the handlers that read the clock.
    - The handlers take the session id that [getSessionId] resolved; the
      response headers and [console.log] lines touch no state modelled
      here. *)

From Stdlib Require Import ZArith Lia Ascii String DecimalString DecimalPos DecimalZ.
From stdpp Require Import gmap strings list fin_maps.

#[local] Set Warnings "-clear-no-such-hyp".
#[local] Open Scope Z_scope.

(** ** Data model *)

Definition Handle := nat.

(** The two module-level variables of [server.js], lines 19-20. *)
Record Registry := mkRegistry {
  activeConnections : gmap string (gset Handle);
  totalConnections : Z
}.

(** State at process start: [new Map()] and [0]. *)
Definition initial : Registry :=
  {| activeConnections := ∅; totalConnections := 0 |}.

(** [activeConnections.size], read as [uniqueVisitors] by [broadcastCount]
    and by [/health]. *)
Definition uniqueVisitors (r : Registry) : Z :=
  Z.of_nat (size (activeConnections r)).

(** The pair of counts both readers report. *)
Definition Snapshot (r : Registry) : Z * Z :=
  (totalConnections r, uniqueVisitors r).

(** ** Attach: [/events] handler, lines 66-70 *)

Definition attach (sessionId : string) (res : Handle) (r : Registry) : Registry :=
  let m := activeConnections r in
  (* if (!activeConnections.has(sessionId)) activeConnections.set(sessionId, new Set()) *)
  let m1 := if decide (is_Some (m !! sessionId)) then m else <[sessionId := ∅]> m in
  (* activeConnections.get(sessionId).add(res): the Set object is updated in place *)
  let m2 := alter (λ responses, {[res]} ∪ responses) sessionId m1 in
  (* totalConnections++ *)
  {| activeConnections := m2; totalConnections := totalConnections r + 1 |}.

(** ** Detach: [close] handler, lines 88-97 *)

Definition detach (sessionId : string) (res : Handle) (r : Registry) : Registry :=
  let m := activeConnections r in
  match m !! sessionId with
  | Some sessionConnections =>
      (* sessionConnections.delete(res): in place, so the map sees it *)
      let sc := sessionConnections ∖ {[res]} in
      let m1 := <[sessionId := sc]> m in
      (* totalConnections-- *)
      let total := totalConnections r - 1 in
      (* if (sessionConnections.size === 0) activeConnections.delete(sessionId) *)
      let m2 := if decide (size sc = 0%nat) then delete sessionId m1 else m1 in
      {| activeConnections := m2; totalConnections := total |}
  | None => r
  end.

(** ** Sequences of registry operations *)

Inductive Op :=
| Attach (sessionId : string) (res : Handle)
| Detach (sessionId : string) (res : Handle).

Definition apply_op (r : Registry) (o : Op) : Registry :=
  match o with
  | Attach v h => attach v h r
  | Detach v h => detach v h r
  end.

Definition run (ops : list Op) (r : Registry) : Registry :=
  foldl apply_op r ops.

(** The handles registered under a session id ([∅] when it is no key). *)
Definition handles (r : Registry) (v : string) : gset Handle :=
  default ∅ (activeConnections r !! v).

(** Σ of the handle-set sizes over all entries of the map. *)
Definition sumMap (m : gmap string (gset Handle)) : Z :=
  map_fold (λ _ (S : gset Handle) acc, Z.of_nat (size S) + acc) 0 m.

Definition sumSizes (r : Registry) : Z := sumMap (activeConnections r).


(** Every entry of the map holds at least one handle. *)
Definition pruned (r : Registry) : Prop :=
  ∀ v S, activeConnections r !! v = Some S → S ≠ ∅.

(** ** Lifecycle-respecting sequences

    In the server every [/events] request brings a fresh response object
    and its [close] handler, bound to that object and its session id,
    fires once.  [op_ok] is that discipline seen from the registry: an
    attached handle is not yet in its session's set, and a detached one
    is in it (or the session has no entry, where the handler's guard
    skips the update). *)

Definition op_ok (r : Registry) (o : Op) : bool :=
  match o with
  | Attach v h => bool_decide (h ∉ handles r v)
  | Detach v h =>
      bool_decide (h ∈ handles r v) || bool_decide (activeConnections r !! v = None)
  end.

Fixpoint ops_ok (r : Registry) (ops : list Op) : bool :=
  match ops with
  | [] => true
  | o :: ops' => op_ok r o && ops_ok (apply_op r o) ops'
  end.

(** The drift of the counter from the sum of the handle-set sizes. *)
Definition drift (r : Registry) : Z := totalConnections r - sumSizes r.

(** How one operation moves the drift, in every state. *)
Definition drift_step (r : Registry) (o : Op) : Z :=
  match o with
  | Attach v h => if decide (h ∈ handles r v) then 1 else 0
  | Detach v h =>
      match activeConnections r !! v with
      | Some sessionConnections => if decide (h ∈ sessionConnections) then 0 else -1
      | None => 0
      end
  end.


(** ** Wire format: what [JSON.stringify] and [toISOString] produce *)

Definition LF : string := String (ascii_of_nat 10) EmptyString.
Definition DQ : string := String (ascii_of_nat 34) EmptyString.

(** Number-to-string conversion of an integer-valued JS number (below
    1e21 in magnitude): decimal digits, a leading minus sign for a
    negative one. *)
Definition Number_toString (n : Z) : string :=
  NilZero.string_of_int (Z.to_int n).

Definition hexdigit (n : nat) : ascii :=
  ascii_of_nat (if Nat.ltb n 10 then 48 + n else 87 + n).

(** [JSON.stringify] of one character inside a string literal. *)
Definition JSON_escape_char (c : ascii) : string :=
  let n := nat_of_ascii c in
  if Nat.eqb n 34 then "\" +:+ DQ
  else if Nat.eqb n 92 then "\\"
  else if Nat.eqb n 8 then "\b"
  else if Nat.eqb n 9 then "\t"
  else if Nat.eqb n 10 then "\n"
  else if Nat.eqb n 12 then "\f"
  else if Nat.eqb n 13 then "\r"
  else if Nat.ltb n 32 then
    "\u00" +:+ String (hexdigit (n / 16)) (String (hexdigit (n mod 16)) EmptyString)
  else String c EmptyString.

Fixpoint JSON_escape (s : string) : string :=
  match s with
  | EmptyString => EmptyString
  | String c s' => JSON_escape_char c +:+ JSON_escape s'
  end.

(** [JSON.stringify] of a string value. *)
Definition JSON_string (s : string) : string := DQ +:+ JSON_escape s +:+ DQ.

(** A property [key: value] of an object literal, value already rendered. *)
Definition JSON_member (key value : string) : string :=
  JSON_string key +:+ ":" +:+ value.

(** The instant [new Date()] reads, as its UTC calendar fields. *)
Record Date := mkDate {
  year : Z; month : Z; day : Z;
  hours : Z; minutes : Z; seconds : Z; milliseconds : Z
}.

(** The character of the last decimal digit of [k]. *)
Definition digit (k : Z) : ascii := ascii_of_nat (48 + Z.to_nat (k mod 10)).

(** The [w] low decimal digits of [n], most significant first. *)
Fixpoint pad (w : nat) (n : Z) : string :=
  match w with
  | O => EmptyString
  | S w' => pad w' (n / 10) +:+ String (digit n) EmptyString
  end.

(** [Date.prototype.toISOString]: [YYYY-MM-DDTHH:mm:ss.sssZ], with the
    expanded six-digit signed year outside 0..9999. *)
Definition toISOString (d : Date) : string :=
  (if (0 <=? year d) && (year d <=? 9999) then pad 4 (year d)
   else (if year d <? 0 then "-" else "+") +:+ pad 6 (Z.abs (year d)))
  +:+ "-" +:+ pad 2 (month d) +:+ "-" +:+ pad 2 (day d)
  +:+ "T" +:+ pad 2 (hours d) +:+ ":" +:+ pad 2 (minutes d)
  +:+ ":" +:+ pad 2 (seconds d) +:+ "." +:+ pad 3 (milliseconds d) +:+ "Z".

(** The object literal of [broadcastCount], lines 41-45. *)
Record CountMessage := mkCountMessage {
  cm_totalConnections : Z;
  cm_uniqueVisitors : Z;
  cm_timestamp : string
}.

Definition JSON_stringify_count (c : CountMessage) : string :=
  "{" +:+ JSON_member "totalConnections" (Number_toString (cm_totalConnections c))
  +:+ "," +:+ JSON_member "uniqueVisitors" (Number_toString (cm_uniqueVisitors c))
  +:+ "," +:+ JSON_member "timestamp" (JSON_string (cm_timestamp c)) +:+ "}".

(** The object literal of the [/health] handler, lines 110-115. *)
Record HealthBody := mkHealthBody {
  hb_status : string;
  hb_totalConnections : Z;
  hb_uniqueVisitors : Z;
  hb_timestamp : string
}.

Definition JSON_stringify_health (b : HealthBody) : string :=
  "{" +:+ JSON_member "status" (JSON_string (hb_status b))
  +:+ "," +:+ JSON_member "totalConnections" (Number_toString (hb_totalConnections b))
  +:+ "," +:+ JSON_member "uniqueVisitors" (Number_toString (hb_uniqueVisitors b))
  +:+ "," +:+ JSON_member "timestamp" (JSON_string (hb_timestamp b)) +:+ "}".

(** Recognisers for the shapes the wire contract names. *)

Definition is_digit (c : ascii) : bool :=
  let n := nat_of_ascii c in Nat.leb 48 n && Nat.leb n 57.

Fixpoint all_digits (s : string) : bool :=
  match s with
  | EmptyString => true
  | String c s' => is_digit c && all_digits s'
  end.





(** ** The server: registry, timers and the writes made so far *)

(** One call of [res.write]: the response it was made on, the chunk, and
    whether the transport took it. *)
Record Write := mkWrite {
  target : Handle;
  chunk : string;
  delivered : bool
}.

Record World := mkWorld {
  registry : Registry;
  heartbeatIntervals : gset Handle;   (* live [setInterval] timers, one per connection *)
  written : list Write                (* oldest first *)
}.

(** The operations of Scenario A, and an instant to stamp messages with. *)
Definition scenarioA : list Op :=
  [Attach "v1" 1%nat; Attach "v1" 2%nat; Attach "v2" 3%nat;
   Detach "v1" 1%nat; Detach "v1" 2%nat; Detach "v2" 3%nat].

Definition noon : Date := mkDate 2024 1 15 12 0 0 0.

Definition boot : World :=
  {| registry := initial; heartbeatIntervals := ∅; written := [] |}.


Definition heartbeat_frame : string := ": heartbeat" +:+ LF +:+ LF.

Definition count_frame (data : string) : string := "data: " +:+ data +:+ LF +:+ LF.

(** The session/handle pairs the nested [forEach] of [broadcastCount]
    visits, each once (JS goes in insertion order, this list in the
    order of the map's keys). *)
Definition registrations (m : gmap string (gset Handle)) : list (string * Handle) :=
  map_to_list m ≫= (λ kv : string * gset Handle, pair kv.1 <$> elements kv.2).

(** The object [broadcastCount] builds from the two variables and the
    clock, lines 40-45. *)
Definition countMessage (r : Registry) (now : Date) : CountMessage :=
  {| cm_totalConnections := totalConnections r;
     cm_uniqueVisitors := uniqueVisitors r;
     cm_timestamp := toISOString now |}.

(** [app.get("/health")], lines 109-116: the body [res.json] sends. *)
Definition healthBody (now : Date) (w : World) : HealthBody :=
  {| hb_status := "ok";
     hb_totalConnections := totalConnections (registry w);
     hb_uniqueVisitors := uniqueVisitors (registry w);
     hb_timestamp := toISOString now |}.

Definition health (now : Date) (w : World) : string :=
  JSON_stringify_health (healthBody now w).

Section Server.
(** Whether a write on a response still reaches its client.  The server
    never looks at it. *)
Variable reachable : Handle → bool.

(** [res.write(chunk)]: returns the transport's verdict. *)
Definition res_write (res : Handle) (c : string) (w : World) : bool * World :=
  let ok := reachable res in
  (ok, {| registry := registry w;
          heartbeatIntervals := heartbeatIntervals w;
          written := written w ++ [mkWrite res c ok] |}).

(** The writes of one pass over [regs] with chunk [c], as a list. *)
Definition pass (c : string) (regs : list (string * Handle)) : list Write :=
  (λ reg : string * Handle, mkWrite reg.2 c (reachable reg.2)) <$> regs.

(** [broadcastCount], lines 39-52. *)
Definition broadcastCount (now : Date) (w : World) : World :=
  let data := JSON_stringify_count (countMessage (registry w) now) in
  foldl (λ w' (reg : string * Handle), (res_write reg.2 (count_frame data) w').2)
        w (registrations (activeConnections (registry w))).

(** [app.get("/events")], lines 55-83, for the session id that
    [getSessionId] resolved and the request's response object. *)
Definition events (sessionId : string) (res : Handle) (now : Date) (w : World) : World :=
  let w1 := {| registry := attach sessionId res (registry w);
               heartbeatIntervals := heartbeatIntervals w;
               written := written w |} in
  let w2 := broadcastCount now w1 in
  {| registry := registry w2;
     heartbeatIntervals := {[res]} ∪ heartbeatIntervals w2;
     written := written w2 |}.

(** One firing of the interval callback of a connection, line 81. *)
Definition heartbeat (res : Handle) (w : World) : World :=
  if decide (res ∈ heartbeatIntervals w) then (res_write res heartbeat_frame w).2 else w.

(** [req.on("close")], lines 85-105. *)
Definition close (sessionId : string) (res : Handle) (now : Date) (w : World) : World :=
  let w1 := {| registry := detach sessionId res (registry w);
               heartbeatIntervals := heartbeatIntervals w ∖ {[res]};
               written := written w |} in
  broadcastCount now w1.

(** What the event loop can run. *)
Inductive Event :=
| EvConnect (sessionId : string) (res : Handle) (now : Date)
| EvClose (sessionId : string) (res : Handle) (now : Date)
| EvHeartbeat (res : Handle).

Definition step (w : World) (e : Event) : World :=
  match e with
  | EvConnect v h now => events v h now w
  | EvClose v h now => close v h now w
  | EvHeartbeat h => heartbeat h w
  end.

Definition steps (es : list Event) (w : World) : World := foldl step w es.
End Server.

(** The registry operation an event performs, if any. *)
Definition ops_of (e : Event) : list Op :=
  match e with
  | EvConnect v h _ => [Attach v h]
  | EvClose v h _ => [Detach v h]
  | EvHeartbeat _ => []
  end.

(** ** Identity: [getSessionId], lines 23-36 *)

(** The options object of [res.cookie], lines 28-32. *)
Record CookieOptions := mkCookieOptions {
  maxAge : Z;          (* milliseconds *)
  httpOnly : bool;
  sameSite : string
}.

(** One [res.cookie(name, value, options)] call. *)
Record SetCookie := mkSetCookie {
  cookieName : string;
  cookieValue : string;
  cookieOptions : CookieOptions
}.

(** [!sessionId] for what [req.cookies.visitorId] holds: [undefined] when
    the request has no such cookie, else the cookie's string.  The empty
    string is falsy in JS. *)
Definition falsy (sessionId : option string) : bool :=
  match sessionId with
  | None => true
  | Some s => String.eqb s EmptyString
  end.

(** [getSessionId(req, res)]: the id it returns and the cookie it sets on
    the response, if any.  [uuid] is what [uuidv4()] yields when it is
    called. *)
Definition getSessionId (visitorId : option string) (uuid : string)
  : string * option SetCookie :=
  let minted :=
    (uuid, Some (mkSetCookie "visitorId" uuid
                   (mkCookieOptions (30 * 24 * 60 * 60 * 1000) true "lax"))) in
  match visitorId with
  | Some s => if falsy visitorId then minted else (s, None)
  | None => minted
  end.

(** What a client that stores cookies sends as [visitorId] on its next
    request: the value just set, else what it sent before. *)
Definition resend (sent : option string) (set : option SetCookie) : option string :=
  match set with
  | Some c => Some (cookieValue c)
  | None => sent
  end.

(** The four [res.setHeader] calls of the [/events] handler, lines 60-63. *)
Definition sse_headers : list (string * string) :=
  [("Content-Type", "text/event-stream"); ("Cache-Control", "no-cache");
   ("Connection", "keep-alive"); ("X-Accel-Buffering", "no")]%string.

(** What the [/events] handler puts on the response before the stream. *)
Record ResponseHead := mkResponseHead {
  setCookie : option SetCookie;
  headers : list (string * string)
}.

(** [app.get("/events")], lines 55-106, from the request's cookie on. *)
Definition get_events (reachable : Handle → bool)
    (visitorId : option string) (uuid : string) (res : Handle) (now : Date)
    (w : World) : ResponseHead * World :=
  let '(sessionId, cookie) := getSessionId visitorId uuid in
  (mkResponseHead cookie sse_headers, events reachable sessionId res now w).

(** ** Lifecycle of connections, seen from the event loop *)

(** The session id an operation works on. *)
Definition op_session (o : Op) : string :=
  match o with
  | Attach v _ => v
  | Detach v _ => v
  end.

(** A connect brings a response object that has no timer yet; a close
    belongs to a response registered under its session id. *)
Definition ev_ok (w : World) (e : Event) : bool :=
  match e with
  | EvConnect v h _ => bool_decide (h ∉ heartbeatIntervals w)
  | EvClose v h _ => bool_decide (h ∈ handles (registry w) v)
  | EvHeartbeat _ => true
  end.

Fixpoint evs_ok (reachable : Handle → bool) (w : World) (es : list Event) : bool :=
  match es with
  | [] => true
  | e :: es' => ev_ok w e && evs_ok reachable (step reachable w e) es'
  end.

(** The responses a run connected. *)
Definition connected (es : list Event) : list Handle :=
  es ≫= (λ e, match e with EvConnect _ h _ => [h] | _ => [] end).

(** A chunk of the count stream. *)
Definition is_count_frame (c : string) : Prop :=
  ∃ (total unique : Z) (d : Date),
    c = count_frame (JSON_stringify_count (mkCountMessage total unique (toISOString d))).

(** Timers and registry agree: the responses with a live heartbeat timer
    are the registered ones, each registered under one session id, and
    the counter counts them. *)
Definition wired (w : World) : Prop :=
  (∀ h, h ∈ heartbeatIntervals w ↔ ∃ v, h ∈ handles (registry w) v)
  ∧ (∀ h v1 v2, h ∈ handles (registry w) v1 → h ∈ handles (registry w) v2 → v1 = v2)
  ∧ totalConnections (registry w) = Z.of_nat (size (heartbeatIntervals w))
  ∧ totalConnections (registry w) = sumSizes (registry w).

(** The character [c] does not occur in [s]. *)
Fixpoint lacks (c : ascii) (s : string) : bool :=
  match s with
  | EmptyString => true
  | String x s' => negb (Ascii.eqb x c) && lacks c s'
  end.

(** The count frames written on response [h], oldest first. *)
Definition count_frames_to (h : Handle) (ws : list Write) : list string :=
  chunk <$> filter (λ wr : Write, target wr = h ∧ chunk wr ≠ heartbeat_frame) ws.
(** ** Sums over the map *)

Section SumMap.
Implicit Types (m : gmap string (gset Handle)) (S : gset Handle) (v : string).

Lemma sumMap_empty : sumMap ∅ = 0.
Proof. unfold sumMap. by rewrite map_fold_empty. Qed.

Lemma sumMap_insert_None v S m :
  m !! v = None → sumMap (<[v:=S]> m) = Z.of_nat (size S) + sumMap m.
Proof.
  intros Hv. unfold sumMap. rewrite map_fold_insert_L; [done| |done].
  intros. lia.
Qed.

Lemma sumMap_delete v S m :
  m !! v = Some S → sumMap m = Z.of_nat (size S) + sumMap (delete v m).
Proof.
  intros Hv. unfold sumMap. rewrite (map_fold_delete_L _ _ v S m); [done| |done].
  intros. lia.
Qed.

Lemma sumMap_insert v S m :
  sumMap (<[v:=S]> m) = Z.of_nat (size S) + sumMap (delete v m).
Proof.
  rewrite <- (insert_delete_eq m). apply sumMap_insert_None, lookup_delete_eq.
Qed.

Lemma sumMap_delete_None v m : m !! v = None → sumMap (delete v m) = sumMap m.
Proof. intros Hv. by rewrite delete_id. Qed.

Lemma sumMap_nonneg m : 0 <= sumMap m.
Proof.
  unfold sumMap. apply (map_fold_weak_ind (λ acc _, 0 <= acc)); [lia|].
  intros. lia.
Qed.
End SumMap.

(** ** The map after one operation *)

Lemma attach_map v h r :
  activeConnections (attach v h r) = <[v := {[h]} ∪ handles r v]> (activeConnections r).
Proof.
  unfold attach, handles; simpl. apply map_eq; intros j.
  destruct (decide (is_Some (activeConnections r !! v))) as [[S Hv]|Hv].
  - rewrite Hv; simpl. destruct (decide (v = j)) as [<-|Hne].
    + by rewrite lookup_alter_eq, Hv, lookup_insert_eq.
    + by rewrite lookup_alter_ne, lookup_insert_ne.
  - apply eq_None_not_Some in Hv. rewrite Hv; simpl.
    destruct (decide (v = j)) as [<-|Hne].
    + by rewrite lookup_alter_eq, !lookup_insert_eq.
    + by rewrite lookup_alter_ne, !lookup_insert_ne.
Qed.

Lemma attach_total v h r :
  totalConnections (attach v h r) = totalConnections r + 1.
Proof. reflexivity. Qed.

Lemma detach_absent v h r :
  activeConnections r !! v = None → detach v h r = r.
Proof. intros Hv. unfold detach. by rewrite Hv. Qed.

Lemma detach_present v h r S :
  activeConnections r !! v = Some S →
  detach v h r =
    {| activeConnections :=
         if decide (S ∖ {[h]} = ∅) then delete v (activeConnections r)
         else <[v := S ∖ {[h]}]> (activeConnections r);
       totalConnections := totalConnections r - 1 |}.
Proof.
  intros Hv. unfold detach. rewrite Hv. f_equal.
  destruct (decide (size (S ∖ {[h]}) = 0%nat)) as [Hz|Hz].
  - apply size_empty_inv in Hz. apply leibniz_equiv in Hz.
    rewrite decide_True by done. by rewrite delete_insert_eq.
  - rewrite decide_False; [done|]. intros He. apply Hz. rewrite He. apply size_empty.
Qed.

(** ** Effect of one operation on the derived quantities *)

Lemma handles_Some r v S : activeConnections r !! v = Some S → handles r v = S.
Proof. intros Hv. unfold handles. by rewrite Hv. Qed.

Lemma handles_None r v : activeConnections r !! v = None → handles r v = ∅.
Proof. intros Hv. unfold handles. by rewrite Hv. Qed.

Lemma handles_attach_eq v h r : handles (attach v h r) v = {[h]} ∪ handles r v.
Proof. unfold handles at 1. by rewrite attach_map, lookup_insert_eq. Qed.

Lemma handles_attach_ne v w h r : v ≠ w → handles (attach v h r) w = handles r w.
Proof. intros Hne. unfold handles. by rewrite attach_map, lookup_insert_ne. Qed.

Lemma attach_dup_map v h r :
  h ∈ handles r v → activeConnections (attach v h r) = activeConnections r.
Proof.
  intros Hin. rewrite attach_map. apply insert_id.
  destruct (activeConnections r !! v) as [S|] eqn:Hv.
  - rewrite (handles_Some _ _ _ Hv) in *. f_equal. apply leibniz_equiv.
    intros x. rewrite elem_of_union, elem_of_singleton. naive_solver.
  - rewrite (handles_None _ _ Hv) in Hin. by apply not_elem_of_empty in Hin.
Qed.

Lemma attach_sum_fresh v h r :
  h ∉ handles r v → sumSizes (attach v h r) = sumSizes r + 1.
Proof.
  intros Hnin. unfold sumSizes. rewrite attach_map, sumMap_insert.
  rewrite size_union by (apply disjoint_singleton_l, Hnin). rewrite size_singleton.
  destruct (activeConnections r !! v) as [S|] eqn:Hv.
  - rewrite (handles_Some _ _ _ Hv), (sumMap_delete v S _ Hv). lia.
  - rewrite (handles_None _ _ Hv), size_empty, sumMap_delete_None by done. lia.
Qed.

Lemma attach_unique v h r :
  uniqueVisitors (attach v h r) =
  uniqueVisitors r + (if decide (is_Some (activeConnections r !! v)) then 0 else 1).
Proof.
  unfold uniqueVisitors. rewrite attach_map, map_size_insert.
  destruct (decide (is_Some (activeConnections r !! v))) as [[S Hv]|Hv].
  - rewrite Hv. simpl. lia.
  - apply eq_None_not_Some in Hv. rewrite Hv. simpl. lia.
Qed.

Lemma attach_pruned v h r : pruned r → pruned (attach v h r).
Proof.
  intros Hp w S. rewrite attach_map. destruct (decide (v = w)) as [<-|Hne].
  - rewrite lookup_insert_eq. intros [= <-]. set_solver.
  - rewrite lookup_insert_ne by done. apply Hp.
Qed.

Lemma detach_sum_member v h r S :
  activeConnections r !! v = Some S → h ∈ S →
  sumSizes (detach v h r) = sumSizes r - 1.
Proof.
  intros Hv Hin. rewrite (detach_present _ _ _ _ Hv). unfold sumSizes; simpl.
  rewrite (sumMap_delete v S _ Hv).
  assert (Hsz : size S = Datatypes.S (size (S ∖ {[h]}))).
  { rewrite (union_difference_singleton_L h S Hin) at 1.
    rewrite size_union by set_solver. by rewrite size_singleton. }
  case_decide as He.
  - rewrite He, size_empty in Hsz. lia.
  - rewrite sumMap_insert. lia.
Qed.

Lemma detach_sum_nonmember v h r S :
  activeConnections r !! v = Some S → h ∉ S →
  sumSizes (detach v h r) = sumSizes r.
Proof.
  intros Hv Hnin. rewrite (detach_present _ _ _ _ Hv). unfold sumSizes; simpl.
  assert (HS : S ∖ {[h]} = S) by (apply leibniz_equiv; set_solver).
  rewrite HS, (sumMap_delete v S _ Hv). case_decide as He.
  - rewrite He, size_empty. lia.
  - rewrite sumMap_insert. lia.
Qed.

Lemma detach_pruned v h r : pruned r → pruned (detach v h r).
Proof.
  intros Hp. destruct (activeConnections r !! v) as [S|] eqn:Hv.
  - rewrite (detach_present _ _ _ _ Hv). intros w T; simpl. case_decide as He.
    + destruct (decide (v = w)) as [<-|Hne].
      * by rewrite lookup_delete_eq.
      * rewrite lookup_delete_ne by done. apply Hp.
    + destruct (decide (v = w)) as [<-|Hne].
      * rewrite lookup_insert_eq. by intros [= <-].
      * rewrite lookup_insert_ne by done. apply Hp.
  - by rewrite detach_absent.
Qed.

Lemma apply_op_pruned r o : pruned r → pruned (apply_op r o).
Proof. destruct o; simpl; auto using attach_pruned, detach_pruned. Qed.

Lemma initial_pruned : pruned initial.
Proof. intros v S. unfold initial; simpl. by rewrite lookup_empty. Qed.

Lemma run_app ops1 ops2 r : run (ops1 ++ ops2) r = run ops2 (run ops1 r).
Proof. unfold run. apply foldl_app. Qed.

Lemma run_snoc ops o r : run (ops ++ [o]) r = apply_op (run ops r) o.
Proof. by rewrite run_app. Qed.

Lemma run_pruned ops r : pruned r → pruned (run ops r).
Proof.
  revert r. induction ops as [|o ops IH]; intros r Hp; simpl; [done|].
  apply IH, apply_op_pruned, Hp.
Qed.


Lemma drift_apply_op r o : drift (apply_op r o) = drift r + drift_step r o.
Proof.
  unfold drift. destruct o as [v h|v h]; cbn [apply_op drift_step].
  - rewrite attach_total. case_decide as Hin.
    + unfold sumSizes. rewrite (attach_dup_map _ _ _ Hin). lia.
    + rewrite (attach_sum_fresh _ _ _ Hin). lia.
  - destruct (activeConnections r !! v) as [S|] eqn:Hv.
    + case_decide as Hin.
      * rewrite (detach_sum_member _ _ _ _ Hv Hin), (detach_present _ _ _ _ Hv). simpl. lia.
      * rewrite (detach_sum_nonmember _ _ _ _ Hv Hin), (detach_present _ _ _ _ Hv). simpl. lia.
    + rewrite (detach_absent _ _ _ Hv). lia.
Qed.

Lemma op_ok_drift_step r o : op_ok r o = true → drift_step r o = 0.
Proof.
  destruct o as [v h|v h]; simpl.
  - intros Hok. apply bool_decide_eq_true in Hok. by rewrite decide_False.
  - intros Hok. apply orb_true_iff in Hok as [Hok|Hok].
    + apply bool_decide_eq_true in Hok. destruct (activeConnections r !! v) as [S|] eqn:Hv; [|done].
      rewrite (handles_Some _ _ _ Hv) in Hok. by rewrite decide_True.
    + apply bool_decide_eq_true in Hok. by rewrite Hok.
Qed.

Lemma ops_ok_drift ops r : ops_ok r ops = true → drift (run ops r) = drift r.
Proof.
  revert r. induction ops as [|o ops IH]; intros r Hok; simpl in *; [done|].
  apply andb_true_iff in Hok as [Ho Hops].
  rewrite (IH _ Hops), drift_apply_op, (op_ok_drift_step _ _ Ho). lia.
Qed.


Lemma drift_initial : drift initial = 0.
Proof. unfold drift, sumSizes, initial; simpl. rewrite sumMap_empty. lia. Qed.

(** ** Strings on the wire *)

Lemma str_app_nil (b : string) : EmptyString +:+ b = b.
Proof. reflexivity. Qed.

Lemma str_app_cons x (a b : string) : String x a +:+ b = String x (a +:+ b).
Proof. reflexivity. Qed.

Lemma str_app_assoc (a b c : string) : (a +:+ b) +:+ c = a +:+ (b +:+ c).
Proof.
  induction a as [|x a IH]; [done|]. rewrite !str_app_cons. by rewrite IH.
Qed.

Lemma is_digit_digit k : is_digit (digit k) = true.
Proof.
  unfold is_digit, digit.
  assert (Hk : (Z.to_nat (k mod 10) < 10)%nat) by
    (pose proof (Z.mod_pos_bound k 10); lia).
  rewrite nat_ascii_embedding by lia.
  apply andb_true_iff; split; apply Nat.leb_le; lia.
Qed.

Lemma all_digits_app a b : all_digits (a +:+ b) = all_digits a && all_digits b.
Proof.
  induction a as [|x a IH]; [done|].
  rewrite str_app_cons. simpl. by rewrite IH, andb_assoc.
Qed.

Lemma all_digits_pad w n : all_digits (pad w n) = true.
Proof.
  revert n. induction w as [|w IH]; intros n; [done|].
  cbn [pad]. rewrite all_digits_app, IH. cbn [all_digits andb].
  by rewrite is_digit_digit.
Qed.

Lemma all_digits_string_of_uint d : all_digits (NilEmpty.string_of_uint d) = true.
Proof. induction d; simpl; auto. Qed.



(** A string of digits carries nothing [JSON.stringify] escapes. *)
Lemma JSON_escape_char_plain c :
  (35 <= nat_of_ascii c)%nat → nat_of_ascii c ≠ 92%nat →
  JSON_escape_char c = String c EmptyString.
Proof.
  intros Hlo Hbs. unfold JSON_escape_char; cbv zeta.
  repeat match goal with
    | |- context [Nat.eqb ?a ?b] => destruct (Nat.eqb_spec a b) as [?|_]; [lia|]
    end.
  destruct (Nat.ltb_spec (nat_of_ascii c) 32); [lia|done].
Qed.

Lemma JSON_escape_app a b : JSON_escape (a +:+ b) = JSON_escape a +:+ JSON_escape b.
Proof.
  induction a as [|x a IH]; [done|].
  rewrite str_app_cons. cbn [JSON_escape]. by rewrite IH, str_app_assoc.
Qed.

Lemma JSON_escape_digit k : JSON_escape_char (digit k) = String (digit k) EmptyString.
Proof.
  pose proof (is_digit_digit k) as Hd. unfold is_digit in Hd.
  apply andb_true_iff in Hd as [Hlo Hhi].
  apply Nat.leb_le in Hlo, Hhi. apply JSON_escape_char_plain; lia.
Qed.

Lemma JSON_escape_pad w n : JSON_escape (pad w n) = pad w n.
Proof.
  revert n. induction w as [|w IH]; intros n; [done|].
  cbn [pad]. rewrite JSON_escape_app, IH. cbn [JSON_escape].
  by rewrite JSON_escape_digit.
Qed.

Lemma JSON_escape_plain_cons c s :
  (35 <= nat_of_ascii c)%nat → nat_of_ascii c ≠ 92%nat →
  JSON_escape (String c s) = String c (JSON_escape s).
Proof. intros Hlo Hbs. cbn [JSON_escape]. by rewrite JSON_escape_char_plain. Qed.

Lemma JSON_escape_toISOString d : JSON_escape (toISOString d) = toISOString d.
Proof.
  assert (Hsep : ∀ c s, c ∈ ["-"; "+"; "T"; ":"; "."; "Z"]%char →
            JSON_escape (String c EmptyString +:+ s) = String c EmptyString +:+ JSON_escape s).
  { intros c s Hc. rewrite !str_app_cons, !str_app_nil.
    repeat (apply elem_of_cons in Hc as [->|Hc]);
      [..|by apply elem_of_nil in Hc];
      apply JSON_escape_plain_cons; vm_compute; lia. }
  unfold toISOString. rewrite JSON_escape_app.
  assert (Hy : ∀ y : string, JSON_escape y = y → ∀ t, JSON_escape t = t →
            JSON_escape y +:+ JSON_escape t = y +:+ t) by (by intros ? -> ? ->).
  apply Hy.
  - destruct (_ && _); [apply JSON_escape_pad|].
    destruct (year d <? 0); (rewrite Hsep by set_solver); by rewrite JSON_escape_pad.
  - repeat first
      [ rewrite Hsep by set_solver
      | rewrite JSON_escape_app, JSON_escape_pad ].
    done.
Qed.

(** [toISOString] has the ISO 8601 shape. *)






(** ** The broadcast loop *)

Lemma elem_of_registrations m v h :
  (v, h) ∈ registrations m ↔ ∃ S, m !! v = Some S ∧ h ∈ S.
Proof.
  unfold registrations. rewrite list_elem_of_bind. split.
  - intros [[v' S] [Hin Hkv]]. simpl in Hin.
    apply list_elem_of_fmap in Hin as [h' [[= -> ->] Hh]].
    apply elem_of_map_to_list in Hkv. apply elem_of_elements in Hh. eauto.
  - intros [S [Hv Hh]]. exists (v, S). split.
    + simpl. apply list_elem_of_fmap. exists h. split; [done|]. by apply elem_of_elements.
    + by apply elem_of_map_to_list.
Qed.

Lemma NoDup_registrations m : NoDup (registrations m).
Proof.
  unfold registrations. apply NoDup_bind.
  - intros [v1 S1] [v2 S2] [v h] Hm1 Hm2 H1 H2. simpl in *.
    apply list_elem_of_fmap in H1 as [h1 [[= -> ->] _]].
    apply list_elem_of_fmap in H2 as [h2 [[= -> ->] _]].
    apply elem_of_map_to_list in Hm1, Hm2. congruence.
  - intros [v S] _. simpl. apply NoDup_fmap_2.
    + intros h1 h2 [= ->]. done.
    + apply NoDup_elements.
  - apply NoDup_map_to_list.
Qed.

Lemma elem_of_registrations_handles r v h :
  (v, h) ∈ registrations (activeConnections r) ↔ h ∈ handles r v.
Proof.
  rewrite elem_of_registrations. unfold handles. split.
  - by intros [S [-> Hh]].
  - destruct (activeConnections r !! v) as [S|]; simpl; [eauto|].
    intros Hh. by apply not_elem_of_empty in Hh.
Qed.

Section ServerFacts.
Variable reachable : Handle → bool.

Lemma write_loop c regs w :
  foldl (λ w' (reg : string * Handle), (res_write reachable reg.2 c w').2) w regs
  = {| registry := registry w;
       heartbeatIntervals := heartbeatIntervals w;
       written := written w ++ pass reachable c regs |}.
Proof.
  revert w. induction regs as [|reg regs IH]; intros w.
  - simpl. rewrite app_nil_r. by destruct w.
  - simpl foldl. rewrite IH. simpl. by rewrite <- app_assoc.
Qed.

Lemma broadcastCount_world now w :
  broadcastCount reachable now w
  = {| registry := registry w;
       heartbeatIntervals := heartbeatIntervals w;
       written := written w ++
         pass reachable (count_frame (JSON_stringify_count (countMessage (registry w) now)))
              (registrations (activeConnections (registry w))) |}.
Proof. unfold broadcastCount. apply write_loop. Qed.

Lemma heartbeat_world res w :
  heartbeat reachable res w
  = {| registry := registry w;
       heartbeatIntervals := heartbeatIntervals w;
       written := written w ++
         (if decide (res ∈ heartbeatIntervals w)
          then [mkWrite res heartbeat_frame (reachable res)] else []) |}.
Proof.
  unfold heartbeat. case_decide; simpl; [done|].
  rewrite app_nil_r. by destruct w.
Qed.

Lemma events_registry v h now w :
  registry (events reachable v h now w) = attach v h (registry w).
Proof. unfold events. simpl. by rewrite broadcastCount_world. Qed.

Lemma close_registry v h now w :
  registry (close reachable v h now w) = detach v h (registry w).
Proof. unfold close. by rewrite broadcastCount_world. Qed.

Lemma heartbeat_registry res w : registry (heartbeat reachable res w) = registry w.
Proof. by rewrite heartbeat_world. Qed.

(** The handlers do to the registry what their Attach/Detach does. *)
Lemma steps_registry es w :
  registry (steps reachable es w) = run (es ≫= ops_of) (registry w).
Proof.
  revert w. induction es as [|e es IH]; intros w; [done|].
  cbn [steps foldl]. fold (steps reachable es (step reachable w e)).
  rewrite IH, bind_cons, run_app. f_equal.
  destruct e as [v h now|v h now|h]; cbn [step ops_of run foldl apply_op].
  - apply events_registry.
  - apply close_registry.
  - apply heartbeat_registry.
Qed.
End ServerFacts.

(** ** The serialised documents, character by character *)

Lemma JSON_stringify_count_explicit c :
  JSON_escape (cm_timestamp c) = cm_timestamp c →
  JSON_stringify_count c
  = "{" +:+ DQ +:+ "totalConnections" +:+ DQ +:+ ":"
        +:+ Number_toString (cm_totalConnections c)
    +:+ "," +:+ DQ +:+ "uniqueVisitors" +:+ DQ +:+ ":"
        +:+ Number_toString (cm_uniqueVisitors c)
    +:+ "," +:+ DQ +:+ "timestamp" +:+ DQ +:+ ":"
        +:+ DQ +:+ cm_timestamp c +:+ DQ +:+ "}".
Proof.
  intros Hts. unfold JSON_stringify_count, JSON_member, JSON_string. rewrite Hts.
  change (JSON_escape "totalConnections") with "totalConnections"%string.
  change (JSON_escape "uniqueVisitors") with "uniqueVisitors"%string.
  change (JSON_escape "timestamp") with "timestamp"%string.
  by rewrite !str_app_assoc.
Qed.

Lemma JSON_stringify_health_explicit b :
  JSON_escape (hb_status b) = hb_status b →
  JSON_escape (hb_timestamp b) = hb_timestamp b →
  JSON_stringify_health b
  = "{" +:+ DQ +:+ "status" +:+ DQ +:+ ":" +:+ DQ +:+ hb_status b +:+ DQ
    +:+ "," +:+ DQ +:+ "totalConnections" +:+ DQ +:+ ":"
        +:+ Number_toString (hb_totalConnections b)
    +:+ "," +:+ DQ +:+ "uniqueVisitors" +:+ DQ +:+ ":"
        +:+ Number_toString (hb_uniqueVisitors b)
    +:+ "," +:+ DQ +:+ "timestamp" +:+ DQ +:+ ":"
        +:+ DQ +:+ hb_timestamp b +:+ DQ +:+ "}".
Proof.
  intros Hst Hts. unfold JSON_stringify_health, JSON_member, JSON_string.
  rewrite Hst, Hts.
  change (JSON_escape "status") with "status"%string.
  change (JSON_escape "totalConnections") with "totalConnections"%string.
  change (JSON_escape "uniqueVisitors") with "uniqueVisitors"%string.
  change (JSON_escape "timestamp") with "timestamp"%string.
  by rewrite !str_app_assoc.
Qed.

(** ** Double detach *)

Lemma detach_twice_total v h r S :
  activeConnections r !! v = Some S → h ∈ S →
  totalConnections (detach v h (detach v h r))
  = totalConnections r - (if decide (S ∖ {[h]} = ∅) then 1 else 2).
Proof.
  intros Hv Hin. rewrite (detach_present v h r S Hv). case_decide as He.
  - rewrite detach_absent; [simpl; lia|]. simpl. apply lookup_delete_eq.
  - erewrite detach_present; [simpl; lia|]. simpl. apply lookup_insert_eq.
Qed.

(** ** Several attaches under one session id *)

Lemma run_cons o ops r : run (o :: ops) r = run ops (apply_op r o).
Proof. reflexivity. Qed.

Lemma run_attach_total v hs r :
  totalConnections (run (Attach v <$> hs) r) = totalConnections r + Z.of_nat (length hs).
Proof.
  revert r. induction hs as [|h hs IH]; intros r.
  - simpl. lia.
  - rewrite fmap_cons, run_cons, IH. cbn [apply_op length]. rewrite attach_total. lia.
Qed.

Lemma run_attach_unique_present v hs r :
  is_Some (activeConnections r !! v) →
  uniqueVisitors (run (Attach v <$> hs) r) = uniqueVisitors r.
Proof.
  revert r. induction hs as [|h hs IH]; intros r Hkey; [done|].
  rewrite fmap_cons, run_cons. cbn [apply_op]. rewrite IH.
  - rewrite attach_unique, decide_True by done. lia.
  - rewrite attach_map, lookup_insert_eq. eauto.
Qed.

(** * The claims *)





(** C3, as stated, fails: a push and a keep-alive that the transport
    refuses leave the handle attached and counted. *)
Lemma C3_counterexample :
  let w := events (λ _, true) "v1" 1%nat noon boot in
  let w' := heartbeat (λ _, false) 1%nat (broadcastCount (λ _, false) noon w) in
  delivered <$> written w' = [true; false; false]
  ∧ handles (registry w') "v1" = {[1%nat]}
  ∧ heartbeatIntervals w' = {[1%nat]}
  ∧ Snapshot (registry w') = (1, 1).
Proof. vm_compute. repeat split; reflexivity. Qed.

(** C3 (amended): whatever the transport answers, a broadcast and a
    keep-alive change neither the registry nor the timers, so a handle
    leaves the Attached state only through the close notification; a
    broadcast makes exactly one write per registered session/handle pair
    (no retry), and it makes all of them whether or not earlier ones
    failed (no abort). *)
Theorem C3_send_failure_is_ignored
    (reachable : Handle → bool) (now : Date) (res : Handle) (w : World) :
  let m := activeConnections (registry w) in
  let data := JSON_stringify_count (countMessage (registry w) now) in
  registry (broadcastCount reachable now w) = registry w
  ∧ heartbeatIntervals (broadcastCount reachable now w) = heartbeatIntervals w
  ∧ registry (heartbeat reachable res w) = registry w
  ∧ heartbeatIntervals (heartbeat reachable res w) = heartbeatIntervals w
  ∧ written (broadcastCount reachable now w)
    = written w ++ pass reachable (count_frame data) (registrations m)
  ∧ NoDup (registrations m)
  ∧ (∀ v h, (v, h) ∈ registrations m ↔ h ∈ handles (registry w) v).
Proof.
  intros m data. rewrite broadcastCount_world, heartbeat_world. simpl.
  repeat split; try done.
  - apply NoDup_registrations.
  - by apply elem_of_registrations_handles.
  - by apply elem_of_registrations_handles.
Qed.

(** C4: Scenario A. The snapshots after each of the six steps are (1,1),
    (2,1), (3,2), (2,2), (1,1), (0,0), and v1 is no key of the map after
    the fifth. *)
Theorem C4_scenario_A :
  (λ n, Snapshot (run (take n scenarioA) initial)) <$> [1; 2; 3; 4; 5; 6]%nat
  = [(1, 1); (2, 1); (3, 2); (2, 2); (1, 1); (0, 0)]
  ∧ activeConnections (run (take 5 scenarioA) initial) !! "v1" = None.
Proof. vm_compute. split; reflexivity. Qed.

(** C5: in every registry state, detaching the last handle of a session
    id removes its key, and the next snapshot counts one visitor less;
    in every state reached from the empty registry a session id is a key
    of the map exactly when its handle set is non-empty. *)
Theorem C5_pruning (r : Registry) (ops : list Op) (v : string) (h : Handle) :
  (activeConnections r !! v = Some {[h]} →
     activeConnections (detach v h r) !! v = None
     ∧ uniqueVisitors (detach v h r) = uniqueVisitors r - 1)
  ∧ (is_Some (activeConnections (run ops initial) !! v)
     ↔ handles (run ops initial) v ≠ ∅).
Proof.
  split.
  - intros Hv. rewrite (detach_present v h r _ Hv).
    rewrite decide_True by (apply leibniz_equiv; set_solver).
    cbn [activeConnections]. split; [apply lookup_delete_eq|].
    unfold uniqueVisitors; cbn [activeConnections].
    rewrite map_size_delete, Hv.
    assert (size (activeConnections r) ≠ 0%nat).
    { intros Hz. apply map_size_empty_inv in Hz. rewrite Hz, lookup_empty in Hv. done. }
    simpl. lia.
  - pose proof (run_pruned ops initial initial_pruned) as Hp.
    unfold handles. split.
    + intros [S HS]. rewrite HS. simpl. by apply (Hp v).
    + destruct (activeConnections (run ops initial) !! v); [eauto|]. simpl. done.
Qed.

Lemma C5_pruning_witness :
  let r := run (take 4 scenarioA) initial in
  activeConnections r !! "v1" = Some {[2%nat]}
  ∧ activeConnections (detach "v1" 2%nat r) !! "v1" = None
  ∧ uniqueVisitors (detach "v1" 2%nat r) = uniqueVisitors r - 1.
Proof.
  assert (Hv : activeConnections (run (take 4 scenarioA) initial) !! "v1" = Some {[2%nat]})
    by (vm_compute; reflexivity).
  split; [exact Hv|].
  exact (proj1 (C5_pruning (run (take 4 scenarioA) initial) [] "v1" 2%nat) Hv).
Defined.

(** C6: from any state, attaching N >= 1 handles (distinct or not) under
    one session id adds N to the counter and adds to [uniqueVisitors] 1
    if the id was no key before and 0 if it was. *)
Theorem C6_multi_attach (r : Registry) (v : string) (hs : list Handle) :
  (1 <= length hs)%nat →
  let r' := run (Attach v <$> hs) r in
  totalConnections r' = totalConnections r + Z.of_nat (length hs)
  ∧ uniqueVisitors r'
    = uniqueVisitors r + (if decide (is_Some (activeConnections r !! v)) then 0 else 1).
Proof.
  intros Hlen r'. split; [apply run_attach_total|].
  destruct hs as [|h hs]; [simpl in Hlen; lia|].
  subst r'. rewrite fmap_cons, run_cons. cbn [apply_op].
  rewrite run_attach_unique_present, attach_unique; [done|].
  rewrite attach_map, lookup_insert_eq. eauto.
Qed.

Lemma C6_multi_attach_witness :
  (1 <= length [5; 6; 7]%nat)%nat
  ∧ (let r' := run (Attach "v1" <$> [5; 6; 7]%nat) initial in
     totalConnections r' = totalConnections initial + Z.of_nat (length [5; 6; 7]%nat)
     ∧ uniqueVisitors r'
       = uniqueVisitors initial
         + (if decide (is_Some (activeConnections initial !! "v1")) then 0 else 1)).
Proof.
  assert (Hlen : (1 <= length [5; 6; 7]%nat)%nat) by (simpl; lia).
  split; [exact Hlen|].
  exact (C6_multi_attach initial "v1" [5; 6; 7]%nat Hlen).
Defined.


(** C8: the body of the status endpoint is one JSON document with the
    current totalConnections, uniqueVisitors and a timestamp, and in every
    state its two counts are those a broadcast at that state sends. *)
Theorem C8_health_reports_broadcast_counts
    (reachable : Handle → bool) (now now' : Date) (w : World) :
  let b := healthBody now w in
  let c := countMessage (registry w) now' in
  (hb_totalConnections b, hb_uniqueVisitors b) = Snapshot (registry w)
  ∧ (cm_totalConnections c, cm_uniqueVisitors c) = Snapshot (registry w)
  ∧ health now w
    = "{" +:+ DQ +:+ "status" +:+ DQ +:+ ":" +:+ DQ +:+ "ok" +:+ DQ
      +:+ "," +:+ DQ +:+ "totalConnections" +:+ DQ +:+ ":"
          +:+ Number_toString (totalConnections (registry w))
      +:+ "," +:+ DQ +:+ "uniqueVisitors" +:+ DQ +:+ ":"
          +:+ Number_toString (uniqueVisitors (registry w))
      +:+ "," +:+ DQ +:+ "timestamp" +:+ DQ +:+ ":"
          +:+ DQ +:+ toISOString now +:+ DQ +:+ "}"
  ∧ written (broadcastCount reachable now' w)
    = written w ++ pass reachable (count_frame (JSON_stringify_count c))
                        (registrations (activeConnections (registry w))).
Proof.
  intros b c. split_and!; try reflexivity.
  - unfold health. rewrite JSON_stringify_health_explicit; [done|done|].
    apply JSON_escape_toISOString.
  - by rewrite broadcastCount_world.
Qed.

(** C9: detaching under a session id that has no entry changes nothing:
    counter and map stay as they were. *)
Theorem C9_detach_unknown_session_is_noop (r : Registry) (v : string) (h : Handle) :
  activeConnections r !! v = None →
  detach v h r = r
  ∧ totalConnections (detach v h r) = totalConnections r
  ∧ activeConnections (detach v h r) = activeConnections r.
Proof. intros Hv. by rewrite (detach_absent v h r Hv). Qed.

Lemma C9_detach_unknown_session_is_noop_witness :
  let r := run [Attach "v1" 1%nat] initial in
  activeConnections r !! "v2" = None
  ∧ detach "v2" 1%nat r = r
  ∧ totalConnections (detach "v2" 1%nat r) = totalConnections r
  ∧ activeConnections (detach "v2" 1%nat r) = activeConnections r.
Proof.
  assert (Hv : activeConnections (run [Attach "v1" 1%nat] initial) !! "v2" = None)
    by (vm_compute; reflexivity).
  split; [exact Hv|].
  exact (C9_detach_unknown_session_is_noop (run [Attach "v1" 1%nat] initial) "v2" 1%nat Hv).
Defined.



(** * Further properties of the registry *)

Lemma detach_lookup v h r w :
  activeConnections (detach v h r) !! w
  = if decide (w = v)
    then match activeConnections r !! v with
         | Some sc => if decide (sc ∖ {[h]} = ∅) then None else Some (sc ∖ {[h]})
         | None => None
         end
    else activeConnections r !! w.
Proof.
  destruct (activeConnections r !! v) as [S|] eqn:Hv.
  - rewrite (detach_present v h r S Hv). cbn [activeConnections].
    destruct (decide (w = v)) as [->|Hne]; case_decide.
    + apply lookup_delete_eq.
    + apply lookup_insert_eq.
    + by apply lookup_delete_ne.
    + by apply lookup_insert_ne.
  - rewrite (detach_absent v h r Hv). by case_decide; subst.
Qed.

Lemma attach_lookup v h r w :
  activeConnections (attach v h r) !! w
  = if decide (w = v) then Some ({[h]} ∪ handles r v) else activeConnections r !! w.
Proof.
  rewrite attach_map. case_decide as Hw.
  - subst. apply lookup_insert_eq.
  - by apply lookup_insert_ne.
Qed.

Lemma detach_total v h r :
  totalConnections (detach v h r)
  = totalConnections r - (if decide (is_Some (activeConnections r !! v)) then 1 else 0).
Proof.
  destruct (activeConnections r !! v) as [S|] eqn:Hv.
  - rewrite (detach_present v h r S Hv). cbn [totalConnections].
    by rewrite decide_True by eauto.
  - rewrite (detach_absent v h r Hv), decide_False by (by intros [? ?]). lia.
Qed.

Lemma handles_attach_any r v w h :
  handles (attach v h r) w
  = (if decide (w = v) then {[h]} ∪ handles r w else handles r w).
Proof.
  case_decide as Hw.
  - subst. apply handles_attach_eq.
  - by apply handles_attach_ne.
Qed.

Lemma handles_detach_any r v w h :
  handles (detach v h r) w
  = (if decide (w = v) then handles r w ∖ {[h]} else handles r w).
Proof.
  unfold handles. rewrite detach_lookup. case_decide as Hw; [subst|done].
  destruct (activeConnections r !! v) as [S|]; simpl.
  - case_decide as He; simpl; by rewrite ?He.
  - apply leibniz_equiv. set_solver.
Qed.

(** X1: what an operation on session id [v] does to the handle set of any
    session id [w], in every state: Attach adds the handle to [v]'s set,
    Detach takes it out, and no other session's set is touched. *)
Theorem handles_after_attach_and_detach (r : Registry) (v w : string) (h : Handle) :
  handles (attach v h r) w
  = (if decide (w = v) then {[h]} ∪ handles r w else handles r w)
  ∧ handles (detach v h r) w
    = (if decide (w = v) then handles r w ∖ {[h]} else handles r w).
Proof. split; [apply handles_attach_any|apply handles_detach_any]. Qed.

Lemma apply_op_lookup_ne r o w :
  w ≠ op_session o → activeConnections (apply_op r o) !! w = activeConnections r !! w.
Proof.
  intros Hne. destruct o as [v h|v h]; cbn [apply_op op_session] in *.
  - by rewrite attach_lookup, decide_False.
  - by rewrite detach_lookup, decide_False.
Qed.

Lemma apply_op_local r r' o :
  activeConnections r !! op_session o = activeConnections r' !! op_session o →
  activeConnections (apply_op r o) !! op_session o
  = activeConnections (apply_op r' o) !! op_session o
  ∧ totalConnections (apply_op r o) - totalConnections r
    = totalConnections (apply_op r' o) - totalConnections r'.
Proof.
  intros Heq. destruct o as [v h|v h]; cbn [apply_op op_session] in *.
  - rewrite !attach_lookup, !decide_True, !attach_total by done.
    unfold handles. rewrite Heq. split; [done|lia].
  - rewrite !detach_lookup, !decide_True, !detach_total, Heq by done.
    split; [done|lia].
Qed.

Lemma Registry_eq r r' :
  activeConnections r = activeConnections r' →
  totalConnections r = totalConnections r' → r = r'.
Proof. destruct r, r'; simpl. by intros -> ->. Qed.

(** X2: operations on different session ids commute: the registry after
    both does not depend on which of the two ran first. *)
Theorem ops_on_different_sessions_commute (r : Registry) (o1 o2 : Op) :
  op_session o1 ≠ op_session o2 →
  apply_op (apply_op r o1) o2 = apply_op (apply_op r o2) o1.
Proof.
  intros Hne.
  assert (H1 : activeConnections (apply_op r o2) !! op_session o1
               = activeConnections r !! op_session o1)
    by (by apply apply_op_lookup_ne).
  assert (H2 : activeConnections (apply_op r o1) !! op_session o2
               = activeConnections r !! op_session o2)
    by (apply apply_op_lookup_ne; congruence).
  destruct (apply_op_local _ _ o1 H1) as [Hm1 Ht1].
  destruct (apply_op_local _ _ o2 H2) as [Hm2 Ht2].
  apply Registry_eq; [|lia].
  apply map_eq. intros w.
  destruct (decide (w = op_session o1)) as [->|Hw1].
  - rewrite Hm1. by apply apply_op_lookup_ne.
  - rewrite (apply_op_lookup_ne (apply_op r o2) o1 w Hw1).
    destruct (decide (w = op_session o2)) as [->|Hw2].
    + by rewrite Hm2.
    + by rewrite !apply_op_lookup_ne.
Qed.

Lemma ops_on_different_sessions_commute_witness :
  op_session (Attach "v1" 1%nat) ≠ op_session (Detach "v2" 3%nat)
  ∧ apply_op (apply_op (run (take 3 scenarioA) initial) (Attach "v1" 1%nat)) (Detach "v2" 3%nat)
    = apply_op (apply_op (run (take 3 scenarioA) initial) (Detach "v2" 3%nat)) (Attach "v1" 1%nat).
Proof.
  assert (Hne : op_session (Attach "v1" 1%nat) ≠ op_session (Detach "v2" 3%nat))
    by (simpl; discriminate).
  split; [exact Hne|].
  exact (ops_on_different_sessions_commute _ _ _ Hne).
Defined.

(** X3: a connection that opens and closes leaves the registry exactly
    as it was: detaching a handle right after attaching it restores map
    and counter, when the handle was not registered under the session id
    before and the session id did not hold an empty set. *)
Theorem detach_after_attach_restores (r : Registry) (v : string) (h : Handle) :
  h ∉ handles r v → activeConnections r !! v ≠ Some ∅ →
  detach v h (attach v h r) = r.
Proof.
  intros Hnin Hne. apply Registry_eq.
  - apply map_eq. intros w. rewrite detach_lookup, !attach_lookup.
    destruct (decide (w = v)) as [->|Hw]; [|done].
    rewrite decide_True by done.
    assert (HS : ({[h]} ∪ handles r v) ∖ {[h]} = handles r v)
      by (apply leibniz_equiv; set_solver).
    rewrite HS. unfold handles in *.
    destruct (activeConnections r !! v) as [S|] eqn:Hv; simpl in *.
    + rewrite decide_False; [done|]. intros ->. done.
    + by rewrite decide_True.
  - rewrite detach_total, attach_lookup, attach_total.
    destruct (decide (v = v)); [|done].
    destruct (decide (is_Some _)) as [|Hn]; [lia|]. destruct Hn. eauto.
Qed.

Lemma detach_after_attach_restores_witness :
  let r := run (take 3 scenarioA) initial in
  ((4%nat ∉ handles r "v1") ∧ activeConnections r !! "v1" ≠ Some ∅)
  ∧ detach "v1" 4%nat (attach "v1" 4%nat r) = r.
Proof.
  set (r := run (take 3 scenarioA) initial).
  assert (Hh : handles r "v1" = {[1%nat; 2%nat]}) by (vm_compute; reflexivity).
  assert (Hnin : 4%nat ∉ handles r "v1") by (rewrite Hh; set_solver).
  assert (Hne : activeConnections r !! "v1" ≠ Some ∅) by (vm_compute; discriminate).
  split; [split; [exact Hnin|exact Hne]|].
  exact (detach_after_attach_restores r "v1" 4%nat Hnin Hne).
Defined.

Lemma drift_step_zero_iff r o : drift_step r o = 0 ↔ op_ok r o = true.
Proof.
  split; [|apply op_ok_drift_step].
  destruct o as [v h|v h]; cbn [drift_step op_ok].
  - case_decide as Hin; [lia|]. intros _. by apply bool_decide_eq_true.
  - destruct (activeConnections r !! v) as [S|] eqn:Hv.
    + case_decide as Hin; [|lia]. intros _. apply orb_true_iff. left.
      apply bool_decide_eq_true. by rewrite (handles_Some r v S Hv).
    + intros _. apply orb_true_iff. right. by apply bool_decide_eq_true.
Qed.

(** X4: one operation keeps the distance between the counter and the sum
    of the handle-set sizes exactly when it respects the lifecycle: an
    Attach of a handle not yet in the session's set, or a Detach of a
    handle that is in it or of a session id without entry.  Every other
    operation moves the counter away from the sum. *)
Theorem counter_keeps_pace_iff_lifecycle (r : Registry) (o : Op) :
  totalConnections (apply_op r o) - sumSizes (apply_op r o)
  = totalConnections r - sumSizes r
  ↔ op_ok r o = true.
Proof.
  rewrite <- drift_step_zero_iff. fold (drift (apply_op r o)) (drift r).
  rewrite drift_apply_op. lia.
Qed.

Lemma size_le_sumMap (m : gmap string (gset Handle)) :
  (∀ v S, m !! v = Some S → S ≠ ∅) → Z.of_nat (size m) <= sumMap m.
Proof.
  induction m as [|v S m Hv IH] using map_ind; intros Hp.
  - rewrite map_size_empty, sumMap_empty. lia.
  - rewrite map_size_insert_None, sumMap_insert_None by done.
    assert (HS : S ≠ ∅) by (apply (Hp v); apply lookup_insert_eq).
    assert (size S ≠ 0%nat) by (intros Hz; apply size_empty_inv in Hz; by apply leibniz_equiv in Hz).
    assert (Z.of_nat (size m) <= sumMap m); [|lia].
    apply IH. intros w T Hw. apply (Hp w).
    rewrite lookup_insert_ne; [done|]. intros ->. congruence.
Qed.

(** X5: on a sequence that respects the lifecycle, from the empty
    registry, the counts are ordered 0 <= uniqueVisitors <=
    totalConnections, one is 0 exactly when the other is, and when they
    are 0 the registry is the empty one again. *)
Theorem lifecycle_counts_are_ordered (ops : list Op) :
  ops_ok initial ops = true →
  let r := run ops initial in
  0 <= uniqueVisitors r <= totalConnections r
  ∧ (totalConnections r = 0 ↔ uniqueVisitors r = 0)
  ∧ (totalConnections r = 0 → r = initial).
Proof.
  intros Hok r.
  pose proof (ops_ok_drift ops initial Hok) as Hd. rewrite drift_initial in Hd.
  unfold drift in Hd. fold r in Hd.
  pose proof (run_pruned ops initial initial_pruned) as Hp. fold r in Hp.
  pose proof (size_le_sumMap (activeConnections r) Hp) as Hle.
  fold (sumSizes r) in Hle.
  assert (Hempty : uniqueVisitors r = 0 → r = initial).
  { unfold uniqueVisitors. intros Hz.
    assert (Hm : activeConnections r = ∅) by (apply map_size_empty_inv; lia).
    apply Registry_eq; [done|]. cbn [initial totalConnections].
    unfold sumSizes in Hd. rewrite Hm, sumMap_empty in Hd. lia. }
  unfold uniqueVisitors in *. split_and!; try lia.
  - split; [lia|]. intros Hz. rewrite (Hempty Hz). done.
  - intros Hz. apply Hempty. lia.
Qed.

Lemma lifecycle_counts_are_ordered_witness :
  ops_ok initial scenarioA = true
  ∧ (let r := run scenarioA initial in
     0 <= uniqueVisitors r <= totalConnections r
     ∧ (totalConnections r = 0 ↔ uniqueVisitors r = 0)
     ∧ (totalConnections r = 0 → r = initial)).
Proof.
  assert (Hok : ops_ok initial scenarioA = true) by (vm_compute; reflexivity).
  split; [exact Hok|]. exact (lifecycle_counts_are_ordered scenarioA Hok).
Defined.

Lemma length_registrations (m : gmap string (gset Handle)) :
  Z.of_nat (length (registrations m)) = sumMap m.
Proof.
  unfold registrations, sumMap. rewrite map_fold_foldr.
  induction (map_to_list m) as [|[v S] l IH]; [done|].
  rewrite bind_cons, length_app, length_fmap. cbn [foldr uncurry fst snd].
  rewrite <- IH. unfold size, set_size. simpl. lia.
Qed.

(** X6: one broadcast writes as many chunks as the handle sets hold
    handles in total, whatever the transport answers. *)
Theorem broadcast_fan_out (reachable : Handle → bool) (now : Date) (w : World) :
  Z.of_nat (length (written (broadcastCount reachable now w)))
  = Z.of_nat (length (written w)) + sumSizes (registry w).
Proof.
  rewrite broadcastCount_world. cbn [written]. unfold pass.
  rewrite length_app, length_fmap, Nat2Z.inj_add, length_registrations. done.
Qed.

(** * Further properties of the handlers *)

Lemma drop_written_app (l k : list Write) : drop (length l) (l ++ k) = k.
Proof. by rewrite drop_app_length. Qed.

Lemma elem_of_pass reachable c regs v h :
  (v, h) ∈ regs → mkWrite h c (reachable h) ∈ pass reachable c regs.
Proof.
  intros Hin. unfold pass. apply list_elem_of_fmap. by exists (v, h).
Qed.

Lemma events_written reachable v h now w :
  written (events reachable v h now w)
  = written w ++
    pass reachable
      (count_frame (JSON_stringify_count (countMessage (attach v h (registry w)) now)))
      (registrations (activeConnections (attach v h (registry w)))).
Proof. unfold events. cbn [written]. by rewrite broadcastCount_world. Qed.

Lemma close_written reachable v h now w :
  written (close reachable v h now w)
  = written w ++
    pass reachable
      (count_frame (JSON_stringify_count (countMessage (detach v h (registry w)) now)))
      (registrations (activeConnections (detach v h (registry w)))).
Proof. unfold close. by rewrite broadcastCount_world. Qed.

(** X7: the [/events] handler sends the counts as they are after its own
    attach to every response registered then, the new one included: each
    gets, among the chunks this handler writes, the frame with the
    incremented totalConnections. *)
Theorem connect_broadcasts_updated_counts
    (reachable : Handle → bool) (v v' : string) (h h' : Handle) (now : Date) (w : World) :
  h' ∈ handles (attach v h (registry w)) v' →
  let r' := attach v h (registry w) in
  let frame := count_frame (JSON_stringify_count (countMessage r' now)) in
  let sent := drop (length (written w)) (written (events reachable v h now w)) in
  mkWrite h' frame (reachable h') ∈ sent
  ∧ mkWrite h frame (reachable h) ∈ sent
  ∧ cm_totalConnections (countMessage r' now) = totalConnections (registry w) + 1.
Proof.
  intros Hin r' frame sent. subst sent. rewrite events_written, drop_written_app.
  split_and!.
  - apply (elem_of_pass _ _ _ v'). by apply elem_of_registrations_handles.
  - apply (elem_of_pass _ _ _ v). apply elem_of_registrations_handles.
    rewrite handles_attach_eq. set_solver.
  - reflexivity.
Qed.

Lemma connect_broadcasts_updated_counts_witness :
  let w := events (λ _, true) "v1" 1%nat noon boot in
  let r' := attach "v1" 2%nat (registry w) in
  let frame := count_frame (JSON_stringify_count (countMessage r' noon)) in
  let sent := drop (length (written w)) (written (events (λ _, true) "v1" 2%nat noon w)) in
  (1%nat ∈ handles r' "v1")
  ∧ mkWrite 1%nat frame true ∈ sent
  ∧ mkWrite 2%nat frame true ∈ sent
  ∧ cm_totalConnections (countMessage r' noon) = totalConnections (registry w) + 1.
Proof.
  set (w := events (λ _, true) "v1" 1%nat noon boot).
  assert (Hh : handles (attach "v1" 2%nat (registry w)) "v1" = {[1%nat; 2%nat]})
    by (vm_compute; reflexivity).
  assert (Hin : 1%nat ∈ handles (attach "v1" 2%nat (registry w)) "v1")
    by (rewrite Hh; set_solver).
  split; [exact Hin|].
  exact (connect_broadcasts_updated_counts (λ _, true) "v1" "v1" 2%nat 1%nat noon w Hin).
Defined.

(** X8: the [close] handler sends the counts as they are after its own
    detach to every response still registered. *)
Theorem close_broadcasts_updated_counts
    (reachable : Handle → bool) (v v' : string) (h h' : Handle) (now : Date) (w : World) :
  h' ∈ handles (detach v h (registry w)) v' →
  let r' := detach v h (registry w) in
  let frame := count_frame (JSON_stringify_count (countMessage r' now)) in
  let sent := drop (length (written w)) (written (close reachable v h now w)) in
  mkWrite h' frame (reachable h') ∈ sent.
Proof.
  intros Hin r' frame sent. subst sent. rewrite close_written, drop_written_app.
  apply (elem_of_pass _ _ _ v'). by apply elem_of_registrations_handles.
Qed.

Lemma close_broadcasts_updated_counts_witness :
  let w := events (λ _, true) "v1" 2%nat noon (events (λ _, true) "v1" 1%nat noon boot) in
  let r' := detach "v1" 1%nat (registry w) in
  let frame := count_frame (JSON_stringify_count (countMessage r' noon)) in
  let sent := drop (length (written w)) (written (close (λ _, true) "v1" 1%nat noon w)) in
  (2%nat ∈ handles r' "v1") ∧ mkWrite 2%nat frame true ∈ sent.
Proof.
  set (w := events (λ _, true) "v1" 2%nat noon (events (λ _, true) "v1" 1%nat noon boot)).
  assert (Hh : handles (detach "v1" 1%nat (registry w)) "v1" = {[2%nat]})
    by (vm_compute; reflexivity).
  assert (Hin : 2%nat ∈ handles (detach "v1" 1%nat (registry w)) "v1")
    by (rewrite Hh; set_solver).
  split; [exact Hin|].
  exact (close_broadcasts_updated_counts (λ _, true) "v1" "v1" 1%nat 2%nat noon w Hin).
Defined.

(** X9: the [close] handler writes nothing on the response it closes,
    when that response is registered under no other session id. *)
Theorem close_writes_nothing_to_closed_response
    (reachable : Handle → bool) (v : string) (h : Handle) (now : Date) (w : World) :
  (∀ v', v' ≠ v → h ∉ handles (registry w) v') →
  h ∉ target <$> drop (length (written w)) (written (close reachable v h now w)).
Proof.
  intros Hother. rewrite close_written, drop_written_app. unfold pass.
  rewrite <- list_fmap_compose. intros Hin.
  apply list_elem_of_fmap in Hin as [[v' h'] [Heq Hreg]]. simpl in Heq. subst h'.
  apply elem_of_registrations_handles in Hreg.
  rewrite handles_detach_any in Hreg. case_decide as Hv.
  - set_solver.
  - by apply (Hother v').
Qed.

Lemma close_writes_nothing_to_closed_response_witness :
  let w := events (λ _, true) "v1" 2%nat noon (events (λ _, true) "v1" 1%nat noon boot) in
  (∀ v', v' ≠ "v1" → 1%nat ∉ handles (registry w) v')
  ∧ 1%nat ∉ target <$> drop (length (written w)) (written (close (λ _, true) "v1" 1%nat noon w)).
Proof.
  set (w := events (λ _, true) "v1" 2%nat noon (events (λ _, true) "v1" 1%nat noon boot)).
  assert (Hother : ∀ v', v' ≠ "v1" → 1%nat ∉ handles (registry w) v').
  { intros v' Hne. subst w. rewrite !events_registry.
    unfold handles. rewrite !attach_lookup, !decide_False by done.
    cbn [initial boot registry activeConnections]. rewrite lookup_empty. set_solver. }
  split; [exact Hother|].
  exact (close_writes_nothing_to_closed_response (λ _, true) "v1" 1%nat noon w Hother).
Defined.

(** X10: the keep-alive of a connection runs from its connect to its
    close: a timer tick right after the [/events] handler writes the
    heartbeat frame on that response and nothing else, and a tick after
    the [close] handler changes nothing. *)
Theorem heartbeat_runs_between_connect_and_close
    (reachable alive : Handle → bool) (v : string) (h : Handle) (now : Date) (w : World) :
  written (heartbeat alive h (events reachable v h now w))
  = written (events reachable v h now w) ++ [mkWrite h heartbeat_frame (alive h)]
  ∧ heartbeat alive h (close reachable v h now w) = close reachable v h now w.
Proof.
  split.
  - rewrite heartbeat_world. cbn [written]. rewrite decide_True; [done|].
    unfold events. cbn [heartbeatIntervals]. set_solver.
  - unfold heartbeat. rewrite decide_False; [done|].
    unfold close. rewrite broadcastCount_world. cbn [heartbeatIntervals]. set_solver.
Qed.

Lemma events_timers reachable v h now w :
  heartbeatIntervals (events reachable v h now w) = {[h]} ∪ heartbeatIntervals w.
Proof. unfold events. cbn [heartbeatIntervals]. by rewrite broadcastCount_world. Qed.

Lemma close_timers reachable v h now w :
  heartbeatIntervals (close reachable v h now w) = heartbeatIntervals w ∖ {[h]}.
Proof. unfold close. by rewrite broadcastCount_world. Qed.

Lemma heartbeat_timers reachable h w :
  heartbeatIntervals (heartbeat reachable h w) = heartbeatIntervals w.
Proof. by rewrite heartbeat_world. Qed.

Lemma handles_initial v : handles initial v = ∅.
Proof. apply handles_None, lookup_empty. Qed.

Lemma boot_wired : wired boot.
Proof.
  unfold wired. change (registry boot) with initial.
  change (heartbeatIntervals boot) with (∅ : gset Handle). split_and!.
  - intros h. split; [set_solver|]. intros [v Hv]. rewrite handles_initial in Hv. set_solver.
  - intros h v1 v2 Hv. rewrite handles_initial in Hv. set_solver.
  - by rewrite size_empty.
  - pose proof drift_initial as Hd. unfold drift in Hd. lia.
Qed.

Lemma step_wired reachable w e :
  wired w → ev_ok w e = true → wired (step reachable w e).
Proof.
  intros (Ht & Hu & Hn & Hs) Hok.
  destruct e as [v h now|v h now|h]; cbn [step ev_ok] in *.
  - apply bool_decide_eq_true in Hok.
    assert (Hfresh : ∀ v', h ∉ handles (registry w) v')
      by (intros v' Hin; apply Hok, Ht; eauto).
    assert (Hh : ∀ v', handles (attach v h (registry w)) v'
               = if decide (v' = v) then {[h]} ∪ handles (registry w) v'
                 else handles (registry w) v')
      by (intros v'; apply handles_attach_any).
    unfold wired. rewrite events_registry, events_timers. split_and!.
    + intros h0. rewrite elem_of_union, elem_of_singleton, Ht. split.
      * intros [->|[v0 Hv0]].
        -- exists v. rewrite Hh, decide_True by done. set_solver.
        -- exists v0. rewrite Hh. case_decide; set_solver.
      * intros [v0 Hv0]. rewrite Hh in Hv0. case_decide; set_solver.
    + intros h0 v1 v2. rewrite !Hh. intros H1 H2.
      destruct (decide (h0 = h)) as [->|Hne].
      * repeat case_decide; subst; try done; exfalso; eapply Hfresh; set_solver.
      * apply (Hu h0); repeat case_decide; set_solver.
    + rewrite attach_total, size_union, size_singleton by set_solver. lia.
    + rewrite attach_total, attach_sum_fresh by apply Hfresh. lia.
  - apply bool_decide_eq_true in Hok.
    assert (Hh : ∀ v', handles (detach v h (registry w)) v'
               = if decide (v' = v) then handles (registry w) v' ∖ {[h]}
                 else handles (registry w) v')
      by (intros v'; apply handles_detach_any).
    assert (Htimer : h ∈ heartbeatIntervals w) by (apply Ht; eauto).
    destruct (activeConnections (registry w) !! v) as [S|] eqn:Hv;
      [|rewrite (handles_None _ _ Hv) in Hok; set_solver].
    rewrite (handles_Some _ _ _ Hv) in Hok.
    unfold wired. rewrite close_registry, close_timers. split_and!.
    + intros h0. rewrite elem_of_difference, elem_of_singleton, Ht. split.
      * intros [[v0 Hv0] Hne]. exists v0. rewrite Hh. case_decide; set_solver.
      * intros [v0 Hv0]. rewrite Hh in Hv0. case_decide as Hv0v.
        -- subst. split; [exists v|]; set_solver.
        -- split; [eauto|]. intros ->. apply Hv0v. apply (Hu h); [done|].
           rewrite (handles_Some _ _ _ Hv). done.
    + intros h0 v1 v2. rewrite !Hh. intros H1 H2.
      apply (Hu h0); repeat case_decide; set_solver.
    + rewrite detach_total, Hv, decide_True by eauto.
      rewrite size_difference by set_solver. rewrite size_singleton.
      assert (size (heartbeatIntervals w) ≠ 0%nat)
        by (intros Hz; apply size_empty_inv in Hz; set_solver).
      lia.
    + rewrite (detach_sum_member _ _ _ _ Hv Hok), detach_total, Hv, decide_True by eauto.
      lia.
  - unfold wired. rewrite heartbeat_registry, heartbeat_timers. done.
Qed.

Lemma steps_wired reachable es w :
  wired w → evs_ok reachable w es = true → wired (steps reachable es w).
Proof.
  revert w. induction es as [|e es IH]; intros w Hw Hok; [done|].
  cbn [evs_ok] in Hok. apply andb_true_iff in Hok as [He Hes].
  cbn [steps foldl]. apply IH; [by apply step_wired|done].
Qed.

(** X11: in a run of the server where every connect brings a response
    that has no timer yet and every close belongs to a response
    registered under its session id, the responses with a live heartbeat
    timer are exactly the registered ones, each registered under one
    session id only, and totalConnections is their number and the sum of
    the handle-set sizes. *)
Theorem timers_follow_connections (reachable : Handle → bool) (es : list Event) :
  evs_ok reachable boot es = true →
  let w := steps reachable es boot in
  (∀ h, h ∈ heartbeatIntervals w ↔ ∃ v, h ∈ handles (registry w) v)
  ∧ (∀ h v1 v2, h ∈ handles (registry w) v1 → h ∈ handles (registry w) v2 → v1 = v2)
  ∧ totalConnections (registry w) = Z.of_nat (size (heartbeatIntervals w))
  ∧ totalConnections (registry w) = sumSizes (registry w).
Proof. intros Hok. by apply (steps_wired reachable es boot boot_wired). Qed.

Lemma timers_follow_connections_witness :
  let es := [EvConnect "v1" 1%nat noon; EvConnect "v1" 2%nat noon; EvHeartbeat 1%nat;
             EvClose "v1" 1%nat noon; EvConnect "v2" 3%nat noon] in
  evs_ok (λ _, true) boot es = true
  ∧ totalConnections (registry (steps (λ _, true) es boot))
    = Z.of_nat (size (heartbeatIntervals (steps (λ _, true) es boot))).
Proof.
  set (es := [EvConnect "v1" 1%nat noon; EvConnect "v1" 2%nat noon; EvHeartbeat 1%nat;
              EvClose "v1" 1%nat noon; EvConnect "v2" 3%nat noon]).
  assert (Hok : evs_ok (λ _, true) boot es = true) by (vm_compute; reflexivity).
  split; [exact Hok|].
  exact (proj1 (proj2 (proj2 (timers_follow_connections (λ _, true) es Hok)))).
Defined.

Lemma steps_snoc reachable es e w :
  steps reachable (es ++ [e]) w = step reachable (steps reachable es w) e.
Proof. unfold steps. by rewrite foldl_app. Qed.

Lemma connected_snoc es e :
  connected (es ++ [e])
  = connected es ++ match e with EvConnect _ h _ => [h] | _ => [] end.
Proof. unfold connected. rewrite bind_app. simpl. by rewrite app_nil_r. Qed.

Lemma is_count_frame_countMessage r now :
  is_count_frame (count_frame (JSON_stringify_count (countMessage r now))).
Proof. by exists (totalConnections r), (uniqueVisitors r), now. Qed.

Lemma run_frames_and_targets reachable es :
  let w := steps reachable es boot in
  (∀ wr, wr ∈ written w →
     (chunk wr = heartbeat_frame ∨ is_count_frame (chunk wr)) ∧ target wr ∈ connected es)
  ∧ (∀ h, h ∈ heartbeatIntervals w → h ∈ connected es)
  ∧ (∀ v h, h ∈ handles (registry w) v → h ∈ connected es).
Proof.
  induction es as [|e es IH] using rev_ind.
  - cbn [steps foldl]. split_and!.
    + intros wr Hwr. by apply elem_of_nil in Hwr.
    + intros h Hh. change (heartbeatIntervals boot) with (∅ : gset Handle) in Hh. set_solver.
    + intros v h Hh. change (registry boot) with initial in Hh.
      rewrite handles_initial in Hh. set_solver.
  - cbv zeta in *. rewrite steps_snoc, connected_snoc.
    destruct IH as (IHw & IHt & IHr).
    set (w := steps reachable es boot) in *.
    destruct e as [v h now|v h now|h]; cbn [step].
    + assert (Hreg : ∀ v' h', h' ∈ handles (attach v h (registry w)) v' →
                h' ∈ connected es ++ [h]).
      { intros v' h' Hin.
        rewrite handles_attach_any in Hin. apply elem_of_app.
        case_decide; [|left; eauto].
        apply elem_of_union in Hin as [Hin|Hin]; [right; set_solver|left; eauto]. }
      split_and!.
      * intros wr. rewrite events_written, elem_of_app. intros [Hold|Hnew].
        -- destruct (IHw wr Hold). split; [done|]. apply elem_of_app. by left.
        -- unfold pass in Hnew. apply list_elem_of_fmap in Hnew as [[v' h'] [-> Hin]].
           cbn [chunk target snd]. split.
           ++ right. apply is_count_frame_countMessage.
           ++ apply (Hreg v'). by apply elem_of_registrations_handles.
      * intros h0. rewrite events_timers, elem_of_union, elem_of_app.
        intros [Hh|Hh]; [right; set_solver|left; eauto].
      * intros v' h'. rewrite events_registry. apply Hreg.
    + assert (Hreg : ∀ v' h', h' ∈ handles (detach v h (registry w)) v' →
                h' ∈ connected es ++ []).
      { intros v' h' Hin. rewrite app_nil_r.
        rewrite handles_detach_any in Hin. apply (IHr v'). case_decide; set_solver. }
      split_and!.
      * intros wr. rewrite close_written, elem_of_app. intros [Hold|Hnew].
        -- destruct (IHw wr Hold). split; [done|]. by rewrite app_nil_r.
        -- unfold pass in Hnew. apply list_elem_of_fmap in Hnew as [[v' h'] [-> Hin]].
           cbn [chunk target snd]. split.
           ++ right. apply is_count_frame_countMessage.
           ++ apply (Hreg v'). by apply elem_of_registrations_handles.
      * intros h0. rewrite close_timers, app_nil_r. intros Hh. apply IHt. set_solver.
      * intros v' h'. rewrite close_registry. apply Hreg.
    + rewrite app_nil_r. split_and!.
      * intros wr. rewrite heartbeat_world. cbn [written]. rewrite elem_of_app.
        intros [Hold|Hnew]; [by apply IHw|].
        case_decide as Ht; [|by apply elem_of_nil in Hnew].
        apply list_elem_of_singleton in Hnew. subst wr. cbn [chunk target].
        split; [by left|by apply IHt].
      * intros h0. rewrite heartbeat_timers. apply IHt.
      * intros v' h'. rewrite heartbeat_registry. apply IHr.
Qed.

(** X12: whatever events the server runs from its start, every chunk it
    has written is a heartbeat frame or a count frame, and the response
    it was written on is one that an [/events] request of the run
    brought. *)
Theorem only_count_and_heartbeat_frames
    (reachable : Handle → bool) (es : list Event) (wr : Write) :
  wr ∈ written (steps reachable es boot) →
  (chunk wr = heartbeat_frame ∨ is_count_frame (chunk wr))
  ∧ target wr ∈ connected es.
Proof. intros Hwr. by apply (run_frames_and_targets reachable es). Qed.

Lemma only_count_and_heartbeat_frames_witness :
  let es := [EvConnect "v1" 1%nat noon; EvHeartbeat 1%nat] in
  let wr := mkWrite 1%nat heartbeat_frame true in
  wr ∈ written (steps (λ _, true) es boot)
  ∧ (chunk wr = heartbeat_frame ∨ is_count_frame (chunk wr))
  ∧ target wr ∈ connected es.
Proof.
  set (es := [EvConnect "v1" 1%nat noon; EvHeartbeat 1%nat]).
  set (wr := mkWrite 1%nat heartbeat_frame true).
  assert (Hwr : wr ∈ written (steps (λ _, true) es boot)).
  { change (steps (λ _, true) es boot)
      with (heartbeat (λ _, true) 1%nat (events (λ _, true) "v1" 1%nat noon boot)).
    rewrite heartbeat_world. cbn [written]. apply elem_of_app. right.
    rewrite decide_True; [apply list_elem_of_here|].
    rewrite events_timers. set_solver. }
  split; [exact Hwr|].
  exact (only_count_and_heartbeat_frames (λ _, true) es wr Hwr).
Defined.

(** * The count frame determines the counts *)

Lemma str_app_inv_head (a b c : string) : a +:+ b = a +:+ c → b = c.
Proof.
  induction a as [|x a IH]; [done|]. rewrite !str_app_cons. intros [= H]. auto.
Qed.

Lemma split_at_char c (s1 s2 r1 r2 : string) :
  lacks c s1 = true → lacks c s2 = true →
  s1 +:+ String c r1 = s2 +:+ String c r2 → s1 = s2 ∧ r1 = r2.
Proof.
  revert s2. induction s1 as [|x s1 IH]; intros [|y s2] H1 H2;
    rewrite ?str_app_nil, ?str_app_cons; cbn [lacks] in *.
  - by intros [= ->].
  - intros [= <- _]. rewrite Ascii.eqb_refl in H2. done.
  - intros [= -> _]. rewrite Ascii.eqb_refl in H1. done.
  - intros [= -> Heq]. apply andb_true_iff in H1 as [_ H1], H2 as [_ H2].
    destruct (IH s2 H1 H2 Heq) as [-> ->]. done.
Qed.

Lemma lacks_app c a b : lacks c (a +:+ b) = lacks c a && lacks c b.
Proof.
  induction a as [|x a IH]; [done|].
  rewrite str_app_cons. cbn [lacks]. by rewrite IH, andb_assoc.
Qed.

Lemma lacks_digits c s : is_digit c = false → all_digits s = true → lacks c s = true.
Proof.
  intros Hc. induction s as [|x s IH]; [done|]. cbn [all_digits lacks].
  intros [Hx Hs]%andb_true_iff. rewrite (IH Hs), andb_true_r.
  apply negb_true_iff, Ascii.eqb_neq. intros ->. congruence.
Qed.

Lemma lacks_Number_toString c n :
  is_digit c = false → c ≠ "-"%char → lacks c (Number_toString n) = true.
Proof.
  intros Hc Hm. unfold Number_toString.
  assert (Hu : ∀ d, lacks c (NilZero.string_of_uint d) = true).
  { intros d. apply lacks_digits; [done|].
    destruct d; try apply all_digits_string_of_uint. reflexivity. }
  destruct (Z.to_int n) as [d|d]; cbn [NilZero.string_of_int]; [apply Hu|].
  cbn [lacks]. rewrite Hu, andb_true_r.
  by apply negb_true_iff, Ascii.eqb_neq.
Qed.

Lemma lacks_toISOString c d :
  is_digit c = false → c ∉ ["-"; "+"; "T"; ":"; "."; "Z"]%char →
  lacks c (toISOString d) = true.
Proof.
  intros Hc Hsep.
  assert (Hp : ∀ w n, lacks c (pad w n) = true)
    by (intros; apply lacks_digits, all_digits_pad; done).
  assert (Hs : ∀ x, x ∈ ["-"; "+"; "T"; ":"; "."; "Z"]%char →
            lacks c (String x EmptyString) = true).
  { intros x Hx. cbn [lacks]. rewrite andb_true_r.
    apply negb_true_iff, Ascii.eqb_neq. intros ->. done. }
  unfold toISOString. rewrite !lacks_app, !Hp.
  rewrite !Hs by set_solver.
  destruct ((0 <=? year d) && (year d <=? 9999)); [by rewrite Hp|].
  rewrite lacks_app, Hp. destruct (year d <? 0); by rewrite Hs by set_solver.
Qed.

Lemma Number_toString_inj a b : Number_toString a = Number_toString b → a = b.
Proof.
  unfold Number_toString. intros Heq.
  assert (Hgood : ∀ n, Z.to_int n ≠ Decimal.Pos Decimal.Nil ∧ Z.to_int n ≠ Decimal.Neg Decimal.Nil).
  { intros [|p|p]; cbn [Z.to_int]; split; try discriminate;
      intros [= Hp]; by apply DecimalPos.Unsigned.to_uint_nonnil in Hp. }
  assert (Hi : Z.to_int a = Z.to_int b).
  { destruct (Hgood a) as [Ha1 Ha2], (Hgood b) as [Hb1 Hb2].
    pose proof (NilZero.isi _ Ha1 Ha2) as Ia. pose proof (NilZero.isi _ Hb1 Hb2) as Ib.
    rewrite Heq in Ia. congruence. }
  rewrite <- (DecimalZ.of_to a), <- (DecimalZ.of_to b). by rewrite Hi.
Qed.

(** X13: a count frame determines what it reports: two frames that are
    equal as strings carry the same totalConnections, the same
    uniqueVisitors and the same timestamp. *)
Theorem count_frame_determines_counts (t1 u1 t2 u2 : Z) (d1 d2 : Date) :
  count_frame (JSON_stringify_count (mkCountMessage t1 u1 (toISOString d1)))
  = count_frame (JSON_stringify_count (mkCountMessage t2 u2 (toISOString d2))) →
  t1 = t2 ∧ u1 = u2 ∧ toISOString d1 = toISOString d2.
Proof.
  unfold count_frame.
  rewrite !JSON_stringify_count_explicit by apply JSON_escape_toISOString.
  cbn [cm_totalConnections cm_uniqueVisitors cm_timestamp].
  rewrite !str_app_assoc. intros H.
  do 6 apply str_app_inv_head in H.
  change ("," +:+ ?x)%string with (String "," x) in H.
  rewrite !(str_app_cons ","), !str_app_nil in H.
  apply split_at_char in H as [Ht H];
    [|by apply lacks_Number_toString|by apply lacks_Number_toString].
  do 4 apply str_app_inv_head in H.
  apply split_at_char in H as [Hu H];
    [|by apply lacks_Number_toString|by apply lacks_Number_toString].
  do 5 apply str_app_inv_head in H.
  unfold DQ in H. rewrite !str_app_cons, !str_app_nil in H.
  apply split_at_char in H as [Hd _];
    [|apply lacks_toISOString; [done|set_solver]..].
  split_and!; [by apply Number_toString_inj|by apply Number_toString_inj|done].
Qed.

Lemma count_frame_determines_counts_witness :
  count_frame (JSON_stringify_count (mkCountMessage 3 2 (toISOString noon)))
  = count_frame (JSON_stringify_count (mkCountMessage 3 2 (toISOString noon)))
  ∧ 3 = 3 ∧ 2 = 2 ∧ toISOString noon = toISOString noon.
Proof.
  split; [reflexivity|].
  exact (count_frame_determines_counts 3 2 3 2 noon noon eq_refl).
Defined.

(** * Identity of visitors *)

Lemma getSessionId_mint visitorId uuid :
  falsy visitorId = true →
  getSessionId visitorId uuid
  = (uuid, Some (mkSetCookie "visitorId" uuid
                   (mkCookieOptions 2592000000 true "lax"))).
Proof. unfold getSessionId. destruct visitorId as [s|]; [|done]. by intros ->. Qed.

Lemma getSessionId_keep s uuid :
  s ≠ EmptyString → getSessionId (Some s) uuid = (s, None).
Proof.
  intros Hs. unfold getSessionId, falsy.
  by apply String.eqb_neq in Hs as ->.
Qed.



Lemma get_events_world reachable visitorId uuid res now w :
  (get_events reachable visitorId uuid res now w).2
  = events reachable (getSessionId visitorId uuid).1 res now w.
Proof. unfold get_events. by destruct (getSessionId visitorId uuid). Qed.

Lemma get_events_head reachable visitorId uuid res now w :
  (get_events reachable visitorId uuid res now w).1
  = mkResponseHead (getSessionId visitorId uuid).2 sse_headers.
Proof. unfold get_events. by destruct (getSessionId visitorId uuid). Qed.

Lemma Snapshot_attach v h r :
  Snapshot (attach v h r)
  = (totalConnections r + 1,
     uniqueVisitors r + (if decide (is_Some (activeConnections r !! v)) then 0 else 1)).
Proof. unfold Snapshot. by rewrite attach_total, attach_unique. Qed.

(** X15: two tabs of one browser count as one visitor.  When a client
    without cookie connects, is given the id [uuid] (not yet a key of
    the map), and connects again sending that cookie back, the two
    [/events] requests raise totalConnections by 2 and uniqueVisitors by
    1, and the second response sets no cookie. *)
Theorem two_tabs_one_visitor
    (reachable : Handle → bool) (uuid uuid' : string) (res res' : Handle)
    (now now' : Date) (w : World) :
  uuid ≠ EmptyString → activeConnections (registry w) !! uuid = None →
  let first := get_events reachable None uuid res now w in
  let second :=
    get_events reachable (resend None (setCookie first.1)) uuid' res' now' first.2 in
  Snapshot (registry second.2)
  = (totalConnections (registry w) + 2, uniqueVisitors (registry w) + 1)
  ∧ setCookie second.1 = None
  ∧ headers second.1 = sse_headers.
Proof.
  intros Hu Hnew first second. subst first second.
  rewrite !get_events_head, !get_events_world. cbn [setCookie headers].
  rewrite (getSessionId_mint None uuid eq_refl). cbn [fst snd resend cookieValue].
  rewrite (getSessionId_keep uuid uuid' Hu). cbn [fst snd].
  rewrite !events_registry, !Snapshot_attach, attach_total, attach_unique.
  assert (Hkey : is_Some (activeConnections (attach uuid res (registry w)) !! uuid))
    by (rewrite attach_map, lookup_insert_eq; eauto).
  destruct (decide (is_Some (activeConnections (attach uuid res (registry w)) !! uuid)))
    as [_|Hn]; [|by destruct Hn].
  destruct (decide (is_Some (activeConnections (registry w) !! uuid))) as [Hs|_];
    [rewrite Hnew in Hs; by destruct Hs|].
  split_and!; [f_equal; lia|done|done].
Qed.

Lemma two_tabs_one_visitor_witness :
  let first := get_events (λ _, true) None "u-1" 1%nat noon boot in
  let second :=
    get_events (λ _, true) (resend None (setCookie first.1)) "u-2" 2%nat noon first.2 in
  ("u-1"%string ≠ EmptyString ∧ activeConnections (registry boot) !! "u-1" = None)
  ∧ Snapshot (registry second.2)
    = (totalConnections (registry boot) + 2, uniqueVisitors (registry boot) + 1).
Proof.
  assert (Hu : "u-1"%string ≠ EmptyString) by discriminate.
  assert (Hnew : activeConnections (registry boot) !! "u-1" = None) by apply lookup_empty.
  split; [split; [exact Hu|exact Hnew]|].
  exact (proj1 (two_tabs_one_visitor (λ _, true) "u-1" "u-2" 1%nat 2%nat noon noon boot Hu Hnew)).
Defined.

(** X16: requests that carry no cookie count as separate visitors.  Two
    [/events] requests without [visitorId] cookie, given different ids
    that are no keys of the map yet, raise totalConnections by 2 and
    uniqueVisitors by 2. *)
Theorem cookieless_requests_are_separate_visitors
    (reachable : Handle → bool) (uuid uuid' : string) (res res' : Handle)
    (now now' : Date) (w : World) :
  uuid ≠ uuid' →
  activeConnections (registry w) !! uuid = None →
  activeConnections (registry w) !! uuid' = None →
  let first := get_events reachable None uuid res now w in
  let second := get_events reachable None uuid' res' now' first.2 in
  Snapshot (registry second.2)
  = (totalConnections (registry w) + 2, uniqueVisitors (registry w) + 2)
  ∧ (cookieValue <$> setCookie first.1) = Some uuid
  ∧ (cookieValue <$> setCookie second.1) = Some uuid'.
Proof.
  intros Hne Hnew Hnew' first second. subst first second.
  rewrite !get_events_head, !get_events_world. cbn [setCookie].
  rewrite !(getSessionId_mint None _ eq_refl). cbn [fst snd].
  rewrite !events_registry, !Snapshot_attach, attach_total, attach_unique.
  assert (Hkey : activeConnections (attach uuid res (registry w)) !! uuid' = None)
    by (rewrite attach_map, lookup_insert_ne; done).
  destruct (decide (is_Some (activeConnections (attach uuid res (registry w)) !! uuid')))
    as [Hs|_]; [rewrite Hkey in Hs; by destruct Hs|].
  destruct (decide (is_Some (activeConnections (registry w) !! uuid))) as [Hs|_];
    [rewrite Hnew in Hs; by destruct Hs|].
  split_and!; [f_equal; lia|done|done].
Qed.

Lemma cookieless_requests_are_separate_visitors_witness :
  let first := get_events (λ _, true) None "u-1" 1%nat noon boot in
  let second := get_events (λ _, true) None "u-2" 2%nat noon first.2 in
  ("u-1"%string ≠ "u-2"%string
   ∧ activeConnections (registry boot) !! "u-1" = None
   ∧ activeConnections (registry boot) !! "u-2" = None)
  ∧ Snapshot (registry second.2)
    = (totalConnections (registry boot) + 2, uniqueVisitors (registry boot) + 2).
Proof.
  assert (Hne : "u-1"%string ≠ "u-2"%string) by discriminate.
  assert (H1 : activeConnections (registry boot) !! "u-1" = None) by apply lookup_empty.
  assert (H2 : activeConnections (registry boot) !! "u-2" = None) by apply lookup_empty.
  split; [split_and!; [exact Hne|exact H1|exact H2]|].
  exact (proj1 (cookieless_requests_are_separate_visitors
                  (λ _, true) "u-1" "u-2" 1%nat 2%nat noon noon boot Hne H1 H2)).
Defined.

(** * Connecting and disconnecting in bulk *)

Lemma ops_ok_app r ops1 ops2 :
  ops_ok r (ops1 ++ ops2) = ops_ok r ops1 && ops_ok (run ops1 r) ops2.
Proof.
  revert r. induction ops1 as [|o ops1 IH]; intros r; [done|].
  cbn [ops_ok app]. rewrite IH, run_cons. by rewrite andb_assoc.
Qed.

Lemma run_attaches (regs : list (string * Handle)) r :
  NoDup regs → (∀ v h, (v, h) ∈ regs → h ∉ handles r v) →
  ops_ok r (uncurry Attach <$> regs) = true
  ∧ ∀ v h, h ∈ handles (run (uncurry Attach <$> regs) r) v
           ↔ h ∈ handles r v ∨ (v, h) ∈ regs.
Proof.
  revert r. induction regs as [|[v0 h0] regs IH]; intros r Hnd Hfresh.
  - split; [done|]. intros v h. cbn [fmap list_fmap run foldl]. set_solver.
  - apply NoDup_cons in Hnd as [Hhd Hnd].
    assert (Hh : ∀ v, handles (attach v0 h0 r) v
               = if decide (v = v0) then {[h0]} ∪ handles r v else handles r v)
      by (intros v; apply handles_attach_any).
    destruct (IH (attach v0 h0 r) Hnd) as [Hok Hin].
    { intros v h Hvh. rewrite Hh. case_decide as Hv.
      - subst v. intros [Heq|Hold]%elem_of_union.
        + apply elem_of_singleton in Heq. subst h. done.
        + apply (Hfresh v0 h); [set_solver|done].
      - apply Hfresh. set_solver. }
    rewrite fmap_cons, run_cons. cbn [ops_ok uncurry op_ok apply_op]. split.
    + rewrite Hok, andb_true_r. apply bool_decide_eq_true. apply Hfresh. set_solver.
    + intros v h. rewrite Hin, Hh, elem_of_cons. case_decide as Hv.
      * subst v. rewrite elem_of_union, elem_of_singleton. split.
        -- intros [[->|?]|?]; eauto.
        -- intros [?|[[= ->]|?]]; eauto.
      * split; [intros [?|?]; eauto|]. intros [?|[[= ? ?]|?]]; eauto. done.
Qed.

Lemma run_detaches (regs : list (string * Handle)) r :
  NoDup regs → (∀ v h, (v, h) ∈ regs → h ∈ handles r v) →
  ops_ok r (uncurry Detach <$> regs) = true
  ∧ ∀ v h, h ∈ handles (run (uncurry Detach <$> regs) r) v
           ↔ h ∈ handles r v ∧ (v, h) ∉ regs.
Proof.
  revert r. induction regs as [|[v0 h0] regs IH]; intros r Hnd Hreg.
  - split; [done|]. intros v h. cbn [fmap list_fmap run foldl]. set_solver.
  - apply NoDup_cons in Hnd as [Hhd Hnd].
    assert (Hh : ∀ v, handles (detach v0 h0 r) v
               = if decide (v = v0) then handles r v ∖ {[h0]} else handles r v)
      by (intros v; apply handles_detach_any).
    destruct (IH (detach v0 h0 r) Hnd) as [Hok Hin].
    { intros v h Hvh. rewrite Hh. case_decide as Hv.
      - subst v. apply elem_of_difference. split; [apply Hreg; set_solver|].
        intros Heq%elem_of_singleton. subst h. done.
      - apply Hreg. set_solver. }
    rewrite fmap_cons, run_cons. cbn [ops_ok uncurry op_ok apply_op]. split.
    + rewrite Hok, andb_true_r. apply orb_true_iff. left.
      apply bool_decide_eq_true. apply Hreg. set_solver.
    + intros v h. rewrite Hin, Hh, not_elem_of_cons. case_decide as Hv.
      * subst v. rewrite elem_of_difference, elem_of_singleton. split.
        -- intros [[? ?] ?]. split_and!; [done| |done]. intros [= ?]. done.
        -- intros [? [Hne ?]]. split_and!; [done| |done]. intros ->. done.
      * split.
        -- intros [? ?]. split_and!; [done| |done]. intros [= ? ?]. done.
        -- intros [? [? ?]]. done.
Qed.

Lemma no_handles_initial r :
  pruned r → drift r = 0 → (∀ v, handles r v = ∅) → r = initial.
Proof.
  intros Hp Hd Hnone.
  assert (Hm : activeConnections r = ∅).
  { apply map_eq. intros v. rewrite lookup_empty.
    destruct (activeConnections r !! v) as [S|] eqn:Hv; [|done].
    exfalso. apply (Hp v S Hv). rewrite <- (handles_Some r v S Hv). apply Hnone. }
  apply Registry_eq; [done|]. unfold drift, sumSizes in Hd.
  rewrite Hm, sumMap_empty in Hd. cbn [initial totalConnections]. lia.
Qed.

(** X17: connections that open and then all close leave the server as
    it started.  For distinct session/handle pairs, attaching them all
    to the empty registry brings totalConnections to their number, and
    detaching them all afterwards, in any order, gives back the empty
    map and the counter 0. *)
Theorem connect_all_then_disconnect_all (regs regs' : list (string * Handle)) :
  NoDup regs → regs' ≡ₚ regs →
  totalConnections (run (uncurry Attach <$> regs) initial) = Z.of_nat (length regs)
  ∧ run ((uncurry Attach <$> regs) ++ (uncurry Detach <$> regs')) initial = initial.
Proof.
  intros Hnd Hperm.
  destruct (run_attaches regs initial Hnd) as [Hok1 Hin1].
  { intros v h _. rewrite handles_initial. set_solver. }
  set (r1 := run (uncurry Attach <$> regs) initial) in *.
  assert (Hnd' : NoDup regs') by (by rewrite Hperm).
  destruct (run_detaches regs' r1 Hnd') as [Hok2 Hin2].
  { intros v h Hvh. apply Hin1. right. by rewrite <- Hperm. }
  split.
  - pose proof (ops_ok_drift _ _ Hok1) as Hd. rewrite drift_initial in Hd.
    fold r1 in Hd. unfold drift in Hd.
    pose proof (length_registrations (activeConnections r1)) as Hl.
    fold (sumSizes r1) in Hl.
    assert (Hp : registrations (activeConnections r1) ≡ₚ regs).
    { apply NoDup_Permutation; [apply NoDup_registrations|done|].
      intros [v h]. rewrite elem_of_registrations_handles, Hin1, handles_initial.
      set_solver. }
    rewrite (Permutation_length Hp) in Hl. lia.
  - rewrite run_app. fold r1. apply no_handles_initial.
    + apply run_pruned. subst r1. apply run_pruned, initial_pruned.
    + unfold r1. rewrite <- run_app, ops_ok_drift; [apply drift_initial|].
      rewrite ops_ok_app. fold r1. by rewrite Hok1, Hok2.
    + intros v. apply leibniz_equiv. intros h. rewrite Hin2, Hin1, handles_initial.
      rewrite Hperm. set_solver.
Qed.

Lemma connect_all_then_disconnect_all_witness :
  let regs := [("v1", 1); ("v1", 2); ("v2", 3)]%string%nat in
  let regs' := [("v2", 3); ("v1", 1); ("v1", 2)]%string%nat in
  (NoDup regs ∧ regs' ≡ₚ regs)
  ∧ run ((uncurry Attach <$> regs) ++ (uncurry Detach <$> regs')) initial = initial.
Proof.
  set (regs := [("v1", 1); ("v1", 2); ("v2", 3)]%string%nat).
  set (regs' := [("v2", 3); ("v1", 1); ("v1", 2)]%string%nat).
  assert (Hnd : NoDup regs) by (apply (bool_decide_unpack _); vm_compute; exact I).
  assert (Hperm : regs' ≡ₚ regs).
  { subst regs regs'.
    etrans; [apply perm_swap|]. apply perm_skip, perm_swap. }
  split; [split; [exact Hnd|exact Hperm]|].
  exact (proj2 (connect_all_then_disconnect_all regs regs' Hnd Hperm)).
Defined.

(** X18: in a run of the server that respects the lifecycle, a broadcast
    writes exactly one chunk on each open connection: the responses it
    writes on are the ones with a live heartbeat timer, none twice, and
    their number is totalConnections. *)
Theorem broadcast_reaches_each_connection_once
    (reachable : Handle → bool) (es : list Event) (now : Date) :
  evs_ok reachable boot es = true →
  let w := steps reachable es boot in
  let sent := drop (length (written w)) (written (broadcastCount reachable now w)) in
  NoDup (target <$> sent)
  ∧ (∀ h, h ∈ target <$> sent ↔ h ∈ heartbeatIntervals w)
  ∧ Z.of_nat (length sent) = totalConnections (registry w).
Proof.
  intros Hok w sent.
  destruct (steps_wired reachable es boot boot_wired Hok) as (Ht & Hu & Hn & Hs).
  fold w in Ht, Hu, Hn, Hs.
  assert (Hsent : target <$> sent = (registrations (activeConnections (registry w))).*2).
  { subst sent. rewrite broadcastCount_world. cbn [written].
    rewrite drop_written_app. unfold pass. by rewrite <- list_fmap_compose. }
  split_and!.
  - rewrite Hsent. apply NoDup_fmap_2_strong; [|apply NoDup_registrations].
    intros [v1 h1] [v2 h2] H1 H2 Heq. simpl in Heq. subst h2.
    apply elem_of_registrations_handles in H1, H2. by rewrite (Hu h1 v1 v2).
  - intros h. rewrite Hsent, Ht. split.
    + intros [[v h'] [-> Hin]]%list_elem_of_fmap. exists v.
      by apply elem_of_registrations_handles.
    + intros [v Hv]. apply list_elem_of_fmap. exists (v, h). split; [done|].
      by apply elem_of_registrations_handles.
  - rewrite <- (length_fmap target), Hsent, length_fmap, length_registrations.
    fold (sumSizes (registry w)). lia.
Qed.

Lemma broadcast_reaches_each_connection_once_witness :
  let es := [EvConnect "v1" 1%nat noon; EvConnect "v2" 2%nat noon] in
  let w := steps (λ _, true) es boot in
  let sent := drop (length (written w)) (written (broadcastCount (λ _, true) noon w)) in
  evs_ok (λ _, true) boot es = true
  ∧ NoDup (target <$> sent)
  ∧ Z.of_nat (length sent) = totalConnections (registry w).
Proof.
  set (es := [EvConnect "v1" 1%nat noon; EvConnect "v2" 2%nat noon]).
  assert (Hok : evs_ok (λ _, true) boot es = true) by (vm_compute; reflexivity).
  split; [exact Hok|].
  destruct (broadcast_reaches_each_connection_once (λ _, true) es noon Hok) as (Hnd & _ & Hlen).
  split; [exact Hnd|exact Hlen].
Defined.

(** * The stream is up to date *)

Lemma count_frame_not_heartbeat data : count_frame data ≠ heartbeat_frame.
Proof. unfold count_frame, heartbeat_frame. by rewrite !str_app_cons. Qed.

Lemma last_all_equal {A} (l1 l2 : list A) (c : A) :
  l2 ≠ [] → (∀ x, x ∈ l2 → x = c) → last (l1 ++ l2) = Some c.
Proof.
  intros Hne Hall. apply last_is_Some in Hne as [y Hy].
  rewrite last_app, Hy. f_equal. apply Hall. by apply last_Some_elem_of.
Qed.

Lemma count_frames_to_app h ws1 ws2 :
  count_frames_to h (ws1 ++ ws2) = count_frames_to h ws1 ++ count_frames_to h ws2.
Proof. unfold count_frames_to. by rewrite filter_app, fmap_app. Qed.

Lemma count_frames_to_pass reachable h data regs v :
  (v, h) ∈ regs →
  let l := count_frames_to h (pass reachable (count_frame data) regs) in
  l ≠ [] ∧ ∀ x, x ∈ l → x = count_frame data.
Proof.
  intros Hin l. subst l. unfold count_frames_to, pass. split.
  - intros Hnil. apply fmap_nil_inv in Hnil.
    apply (filter_nil_not_elem_of _ _ (mkWrite h (count_frame data) (reachable h))) in Hnil.
    + apply Hnil. apply list_elem_of_fmap. by exists (v, h).
    + split; [done|]. apply count_frame_not_heartbeat.
  - intros x [wr [-> Hwr]]%list_elem_of_fmap.
    apply list_elem_of_filter in Hwr as [_ Hwr].
    by apply list_elem_of_fmap in Hwr as [reg [-> _]].
Qed.

Lemma latest_frame_invariant reachable es :
  let w := steps reachable es boot in
  ∀ v h, h ∈ handles (registry w) v →
    ∃ now, last (count_frames_to h (written w))
           = Some (count_frame (JSON_stringify_count (countMessage (registry w) now))).
Proof.
  induction es as [|e es IH] using rev_ind; cbv zeta in *.
  - intros v h Hh. change (registry (steps reachable [] boot)) with initial in Hh.
    rewrite handles_initial in Hh. set_solver.
  - rewrite steps_snoc. set (w := steps reachable es boot) in *.
    destruct e as [v0 h0 now|v0 h0 now|h0]; cbn [step]; intros v h Hh.
    + rewrite events_registry in Hh |- *. exists now.
      rewrite events_written, count_frames_to_app.
      apply elem_of_registrations_handles in Hh.
      destruct (count_frames_to_pass reachable h
                  (JSON_stringify_count (countMessage (attach v0 h0 (registry w)) now))
                  _ v Hh) as [Hne Hall].
      by apply last_all_equal.
    + rewrite close_registry in Hh |- *. exists now.
      rewrite close_written, count_frames_to_app.
      apply elem_of_registrations_handles in Hh.
      destruct (count_frames_to_pass reachable h
                  (JSON_stringify_count (countMessage (detach v0 h0 (registry w)) now))
                  _ v Hh) as [Hne Hall].
      by apply last_all_equal.
    + rewrite heartbeat_registry in Hh |- *.
      destruct (IH v h Hh) as [now Hnow]. exists now.
      rewrite heartbeat_world. cbn [written]. rewrite count_frames_to_app.
      assert (Hnil : count_frames_to h
                (if decide (h0 ∈ heartbeatIntervals w)
                 then [mkWrite h0 heartbeat_frame (reachable h0)] else []) = []).
      { case_decide; [|done]. unfold count_frames_to.
        rewrite filter_cons_False; [done|]. cbn [chunk]. by intros [_ ?]. }
      by rewrite Hnil, app_nil_r.
Qed.

(** X19: the stream is never stale for a connected client.  Whatever
    events the server has run, the latest count frame written on a
    response that is registered now reports the counts the registry
    holds now. *)
Theorem latest_frame_reports_current_counts
    (reachable : Handle → bool) (es : list Event) (v : string) (h : Handle) :
  h ∈ handles (registry (steps reachable es boot)) v →
  ∃ now,
    last (count_frames_to h (written (steps reachable es boot)))
    = Some (count_frame
              (JSON_stringify_count (countMessage (registry (steps reachable es boot)) now))).
Proof. apply (latest_frame_invariant reachable es). Qed.

Lemma latest_frame_reports_current_counts_witness :
  let es := [EvConnect "v1" 1%nat noon; EvConnect "v2" 2%nat noon; EvHeartbeat 1%nat;
             EvClose "v2" 2%nat noon] in
  let w := steps (λ _, true) es boot in
  (1%nat ∈ handles (registry w) "v1")
  ∧ ∃ now, last (count_frames_to 1%nat (written w))
           = Some (count_frame (JSON_stringify_count (countMessage (registry w) now))).
Proof.
  set (es := [EvConnect "v1" 1%nat noon; EvConnect "v2" 2%nat noon; EvHeartbeat 1%nat;
              EvClose "v2" 2%nat noon]).
  assert (Hh : handles (registry (steps (λ _, true) es boot)) "v1" = {[1%nat]})
    by (vm_compute; reflexivity).
  assert (Hin : 1%nat ∈ handles (registry (steps (λ _, true) es boot)) "v1")
    by (rewrite Hh; set_solver).
  split; [exact Hin|].
  exact (latest_frame_reports_current_counts (λ _, true) es "v1" 1%nat Hin).
Defined.
